(** * The unsupported-platform notification facade (src/addon_none.cc)

    A shallow embedding of the six native entry points of the addon and of
    the fragment of node-addon-api they are written against, followed by the
    properties of the facade.

    The JavaScript environment is an explicit state: a heap of objects
    addressed by reference, an allocation counter, the queue of promise jobs
    and the realm's prototype objects.  An object has an internal slot, a
    prototype link, an extensibility flag and own properties, each a data
    property or an accessor.  Reading and writing a property follow the
    prototype chain and run accessors; what a function of the host does when
    it is called is left open, as the interface [Engine].  A native function
    is a state transformer that either returns a value or throws: a failed
    call of the library ends the native function, as in a build with C++
    exceptions.  Properties are named by strings; symbols, proxies and other
    exotic objects are not modelled. *)

From Stdlib Require Import Floats.
From stdpp Require Import base option list strings gmap fin_maps.

(** ** JavaScript values and the heap *)

Definition ref := nat.

Inductive value :=
| VUndefined
| VNull
| VBoolean (b : bool)
| VNumber (x : float)
| VString (s : string)
| VObject (r : ref).

(** The native functions of this addon, as function pointers handed to
    [Napi::Function::New]. *)
Inductive native :=
| NIsAvailable
| NRequestPermission
| NGetPermissionStatus
| NShowNotification
| NRemoveNotification
| NRemoveAllNotifications.

Inductive PromiseState :=
| Pending
| Fulfilled (v : value)
| Rejected (reason : value).

(** The internal slot of an object: a function of the host is known by the
    number of its code, an error by its name. *)
Inductive ObjectKind :=
| Ordinary
| PromiseObject (s : PromiseState)
| FunctionObject (f : native)
| HostFunction (code : nat)
| ErrorObject (name : string).

Inductive Property :=
| DataProperty (v : value) (writable : bool)
| AccessorProperty (getter setter : value).

Record JSObject := mkObject {
  kind : ObjectKind;
  proto : option ref;
  extensible : bool;
  props : gmap string Property
}.

(** A promise job left for the event loop: following a thenable. *)
Record Job := mkJob {
  job_promise : ref;
  job_thenable : ref;
  job_then : value
}.

(** The prototype objects of the realm; the one of an error goes by the
    error's name. *)
Record Realm := mkRealm {
  object_prototype : ref;
  function_prototype : ref;
  promise_prototype : ref;
  error_prototype : string → ref
}.

Record EnvState := mkEnvState {
  heap : gmap ref JSObject;
  next : ref;
  jobs : list Job;
  realm : Realm
}.

Definition with_heap (h : gmap ref JSObject) (st : EnvState) : EnvState :=
  {| heap := h; next := next st; jobs := jobs st; realm := realm st |}.

Definition with_kind (k : ObjectKind) (o : JSObject) : JSObject :=
  {| kind := k; proto := proto o; extensible := extensible o; props := props o |}.

Definition with_props (ps : gmap string Property) (o : JSObject) : JSObject :=
  {| kind := kind o; proto := proto o; extensible := extensible o; props := ps |}.

Definition prototype_object (parent : option ref) : JSObject :=
  {| kind := Ordinary; proto := parent; extensible := true; props := ∅ |}.

(** A small environment: the prototype objects of the realm, without
    properties, and nothing else; one object stands for the prototypes of
    all errors. *)
Definition initial_env : EnvState :=
  {| heap := <[3 := prototype_object (Some 0)]>
             (<[2 := prototype_object (Some 0)]>
             (<[1 := prototype_object (Some 0)]>
             (<[0 := prototype_object None]> ∅)));
     next := 4;
     jobs := [];
     realm := {| object_prototype := 0;
                 function_prototype := 1;
                 promise_prototype := 2;
                 error_prototype := λ _, 3 |} |}.

(** ** Native calls: state and errors *)

Inductive napi_status :=
| napi_invalid_arg
| napi_object_expected
| napi_function_expected
| napi_generic_failure.

(** What a native call throws: the error node-addon-api makes of a failed
    status, or the JavaScript exception that was pending. *)
Inductive exception :=
| NapiError (s : napi_status)
| JSException (v : value).

Inductive outcome (A : Type) :=
| Returned (a : A)
| Thrown (e : exception).
Arguments Returned {A} a.
Arguments Thrown {A} e.

Definition Napi (A : Type) : Type := EnvState → outcome A * EnvState.

Definition ret {A} (a : A) : Napi A := λ st, (Returned a, st).

Definition bind {A B} (m : Napi A) (k : A → Napi B) : Napi B :=
  λ st, match m st with
        | (Returned a, st') => k a st'
        | (Thrown e, st') => (Thrown e, st')
        end.

Notation "'let*' x := m 'in' k" := (bind m (λ x, k))
  (at level 10, x name, m at level 100, k at level 200).
Notation "m ;;; k" := (bind m (λ _, k))
  (at level 100, k at level 200, right associativity).

(** What the engine does when it calls the function [fn] with receiver
    [this] and arguments [args]: any effect on the environment, and a value
    or an exception. *)
Class Engine := host_call : value → value → list value → Napi value.

(** ** The fragment of node-addon-api used by the addon *)

(** [Napi::Env] is a handle; the state it stands for is threaded by [Napi]. *)
Inductive Env := env_handle.

Record CallbackInfo := mkCallbackInfo {
  info_Env : Env;
  info_This : value;
  info_args : list value
}.

Definition alloc (o : JSObject) : Napi ref :=
  λ st, (Returned (next st),
         {| heap := <[next st := o]> (heap st);
            next := S (next st);
            jobs := jobs st;
            realm := realm st |}).

(** [new Error()] and the like: a fresh error object of the given name. *)
Definition new_error (name : string) : Napi ref :=
  λ st,
    alloc {| kind := ErrorObject name;
             proto := Some (error_prototype (realm st) name);
             extensible := true;
             props := ∅ |} st.

Definition is_callable (h : gmap ref JSObject) (v : value) : bool :=
  match v with
  | VObject r =>
      match h !! r with
      | Some {| kind := FunctionObject _ |} => true
      | Some {| kind := HostFunction _ |} => true
      | _ => false
      end
  | _ => false
  end.

(** The property found under [key] on the object [r] or, failing that, along
    its prototype chain, looking at no more than [fuel] objects. *)
Fixpoint find_property (fuel : nat) (h : gmap ref JSObject) (r : ref) (key : string)
  : option Property :=
  match fuel with
  | 0 => None
  | S n =>
      match h !! r with
      | None => None
      | Some o =>
          match props o !! key with
          | Some p => Some p
          | None =>
              match proto o with
              | Some parent => find_property n h parent key
              | None => None
              end
          end
      end
  end.

(** A prototype chain has no cycle, so it is no longer than the heap. *)
Definition lookup_chain (h : gmap ref JSObject) (r : ref) (key : string)
  : option Property :=
  find_property (S (size h)) h r key.

Module Boolean.
(** [Napi::Boolean::New(env, b)]: a primitive, nothing is allocated. *)
Definition New (env : Env) (b : bool) : Napi value := ret (VBoolean b).
End Boolean.

Module String.
(** [Napi::String::New(env, s)]. *)
Definition New (env : Env) (s : string) : Napi value := ret (VString s).
End String.

Module Object.
(** [Napi::Object::New(env)]: a fresh extensible object without own
    properties, whose prototype is [Object.prototype].  A [Napi::Object] is
    the reference of an object. *)
Definition New (env : Env) : Napi ref :=
  λ st,
    alloc {| kind := Ordinary;
             proto := Some (object_prototype (realm st));
             extensible := true;
             props := ∅ |} st.

(** [obj.Get(key)]: the value of the property found on [obj] or along its
    prototype chain, undefined when there is none; a getter is called with
    [obj] as receiver. *)
Definition Get `{Engine} (obj : ref) (key : string) : Napi value :=
  λ st,
    match heap st !! obj with
    | None => (Thrown (NapiError napi_object_expected), st)
    | Some _ =>
        match lookup_chain (heap st) obj key with
        | None => (Returned VUndefined, st)
        | Some (DataProperty v _) => (Returned v, st)
        | Some (AccessorProperty getter _) =>
            if is_callable (heap st) getter
            then host_call getter (VObject obj) [] st
            else (Returned VUndefined, st)
        end
    end.

(** [obj.Set(key, v)]: the assignment [obj[key] = v] outside strict mode.  A
    setter found on [obj] or along its prototype chain is called with [obj]
    as receiver, and what it throws is thrown; an accessor without setter and
    a read-only property leave [obj] as it is; otherwise the own property is
    updated, or created if [obj] is extensible.  An assignment that writes
    nothing still succeeds. *)
Definition Set_ `{Engine} (obj : ref) (key : string) (v : value) : Napi unit :=
  λ st,
    match heap st !! obj with
    | None => (Thrown (NapiError napi_object_expected), st)
    | Some o =>
        let write :=
          (Returned tt,
           with_heap
             (<[obj := with_props (<[key := DataProperty v true]> (props o)) o]>
                (heap st)) st) in
        match lookup_chain (heap st) obj key with
        | Some (AccessorProperty _ setter) =>
            if is_callable (heap st) setter
            then match host_call setter (VObject obj) [v] st with
                 | (Returned _, st') => (Returned tt, st')
                 | (Thrown e, st') => (Thrown e, st')
                 end
            else (Returned tt, st)
        | Some (DataProperty _ false) => (Returned tt, st)
        | Some (DataProperty _ true) =>
            match props o !! key with
            | Some _ => write
            | None => if extensible o then write else (Returned tt, st)
            end
        | None => if extensible o then write else (Returned tt, st)
        end
    end.
End Object.

Module Function.
(** [Napi::Function::New(env, cb)]: a fresh function object for [cb]. *)
Definition New (env : Env) (cb : native) : Napi value :=
  λ st,
    (let* r := alloc {| kind := FunctionObject cb;
                        proto := Some (function_prototype (realm st));
                        extensible := true;
                        props := ∅ |} in
     ret (VObject r)) st.
End Function.

(** Concluding the promise [r]: its slot changes, the rest of it stays. *)
Definition settle (r : ref) (s : PromiseState) (st : EnvState) : EnvState :=
  match heap st !! r with
  | Some p => with_heap (<[r := with_kind (PromiseObject s) p]> (heap st)) st
  | None => st
  end.

Module Promise.
(** [Napi::Promise::Deferred]: the deferred handle and its promise. *)
Record Deferred := mkDeferred {
  _env : Env;
  _deferred : ref;
  _promise : value
}.

Module Deferred.
(** [Deferred::New(env)]: a fresh pending promise. *)
Definition New (env : Env) : Napi Deferred :=
  λ st,
    (let* r := alloc {| kind := PromiseObject Pending;
                        proto := Some (promise_prototype (realm st));
                        extensible := true;
                        props := ∅ |} in
     ret {| _env := env; _deferred := r; _promise := VObject r |}) st.

(** [deferred.Resolve(v)]: only a pending promise can be concluded.  A value
    that is not an object fulfils the promise at once.  For an object, its
    [then] is read as any property is: if that throws, the promise is
    rejected with what was thrown; if it gives a function, the promise stays
    pending and the job that follows the thenable is queued; otherwise the
    promise is fulfilled.  A promise resolved with itself is rejected with a
    new [TypeError]. *)
Definition Resolve `{Engine} (d : Deferred) (v : value) : Napi unit :=
  λ st,
    match heap st !! _deferred d with
    | Some {| kind := PromiseObject Pending |} =>
        match v with
        | VObject t =>
            if decide (t = _deferred d)
            then
              (Returned tt,
               settle (_deferred d) (Rejected (VObject (next st)))
                 (new_error "TypeError" st).2)
            else
              match Object.Get t "then" st with
              | (Returned then_, st1) =>
                  if is_callable (heap st1) then_
                  then (Returned tt,
                        {| heap := heap st1;
                           next := next st1;
                           jobs := jobs st1 ++
                             [{| job_promise := _deferred d;
                                 job_thenable := t;
                                 job_then := then_ |}];
                           realm := realm st1 |})
                  else (Returned tt, settle (_deferred d) (Fulfilled v) st1)
              | (Thrown (JSException e), st1) =>
                  (Returned tt, settle (_deferred d) (Rejected e) st1)
              | (Thrown (NapiError s), st1) => (Thrown (NapiError s), st1)
              end
        | _ => (Returned tt, settle (_deferred d) (Fulfilled v) st)
        end
    | _ => (Thrown (NapiError napi_generic_failure), st)
    end.

(** [deferred.Promise()]. *)
Definition Promise (d : Deferred) : value := _promise d.
End Deferred.
End Promise.

(** [env.Undefined()]. *)
Definition Env_Undefined (env : Env) : Napi value := ret VUndefined.

(** ** The addon *)

Definition IsAvailable (info : CallbackInfo) : Napi value :=
  Boolean.New (info_Env info) false.

Definition RequestPermission `{Engine} (info : CallbackInfo) : Napi value :=
  let env := info_Env info in
  let* deferred := Promise.Deferred.New env in
  let* v := Boolean.New env false in
  Promise.Deferred.Resolve deferred v ;;;
  ret (Promise.Deferred.Promise deferred).

Definition GetPermissionStatus `{Engine} (info : CallbackInfo) : Napi value :=
  let env := info_Env info in
  let* deferred := Promise.Deferred.New env in
  let* v := String.New env "denied" in
  Promise.Deferred.Resolve deferred v ;;;
  ret (Promise.Deferred.Promise deferred).

Definition ShowNotification `{Engine} (info : CallbackInfo) : Napi value :=
  let env := info_Env info in
  let* deferred := Promise.Deferred.New env in
  let* result := Object.New env in
  let* success := Boolean.New env false in
  Object.Set_ result "success" success ;;;
  let* error := String.New env "Native notifications not available on this platform" in
  Object.Set_ result "error" error ;;;
  Promise.Deferred.Resolve deferred (VObject result) ;;;
  ret (Promise.Deferred.Promise deferred).

Definition RemoveNotification (info : CallbackInfo) : Napi value :=
  Env_Undefined (info_Env info).

Definition RemoveAllNotifications (info : CallbackInfo) : Napi value :=
  Env_Undefined (info_Env info).

(** Calling a function object runs the native code it was created for. *)
Definition native_code `{Engine} (f : native) : CallbackInfo → Napi value :=
  match f with
  | NIsAvailable => IsAvailable
  | NRequestPermission => RequestPermission
  | NGetPermissionStatus => GetPermissionStatus
  | NShowNotification => ShowNotification
  | NRemoveNotification => RemoveNotification
  | NRemoveAllNotifications => RemoveAllNotifications
  end.

Definition Init `{Engine} (env : Env) (exports : ref) : Napi ref :=
  (let* f := Function.New env NIsAvailable in
   Object.Set_ exports "isAvailable" f) ;;;
  (let* f := Function.New env NRequestPermission in
   Object.Set_ exports "requestPermission" f) ;;;
  (let* f := Function.New env NGetPermissionStatus in
   Object.Set_ exports "getPermissionStatus" f) ;;;
  (let* f := Function.New env NShowNotification in
   Object.Set_ exports "showNotification" f) ;;;
  (let* f := Function.New env NRemoveNotification in
   Object.Set_ exports "removeNotification" f) ;;;
  (let* f := Function.New env NRemoveAllNotifications in
   Object.Set_ exports "removeAllNotifications" f) ;;;
  ret exports.

(** ** The host's side: loading the module and calling an export *)

(** The module as the host sees it once [Init] has run on a fresh exports
    object. *)
Definition load_module `{Engine} (env : Env) : Napi ref :=
  let* exports := Object.New env in
  Init env exports.

(** [fn.call(this, ...args)]: a function object of the addon runs its native
    code, a function of the host is left to the engine, anything else is a
    [TypeError]. *)
Definition call_function `{Engine} (fn : value) (info : CallbackInfo) : Napi value :=
  λ st,
    let not_a_function :=
      (Thrown (JSException (VObject (next st))),
       (new_error "TypeError" st).2) in
    match fn with
    | VObject r =>
        match heap st !! r with
        | Some {| kind := FunctionObject f |} => native_code f info st
        | Some {| kind := HostFunction _ |} =>
            host_call fn (info_This info) (info_args info) st
        | _ => not_a_function
        end
    | _ => not_a_function
    end.

(** [exports.name(...args)]. *)
Definition call_export `{Engine} (exports : ref) (name : string) (args : list value)
  : Napi value :=
  let* fn := Object.Get exports name in
  call_function fn {| info_Env := env_handle;
                      info_This := VObject exports;
                      info_args := args |}.

(** The names [Init] registers, with the native function behind each. *)
Definition export_table : list (string * native) :=
  [("isAvailable", NIsAvailable);
   ("requestPermission", NRequestPermission);
   ("getPermissionStatus", NGetPermissionStatus);
   ("showNotification", NShowNotification);
   ("removeNotification", NRemoveNotification);
   ("removeAllNotifications", NRemoveAllNotifications)].

(** The function object [Napi::Function::New] creates for [cb]. *)
Definition function_object (st : EnvState) (cb : native) : JSObject :=
  {| kind := FunctionObject cb;
     proto := Some (function_prototype (realm st));
     extensible := true;
     props := ∅ |}.

(** [exports.name] is an own, writable data property of [exports] holding a
    function object that runs [cb]. *)
Definition exports_function
    (st : EnvState) (exports : ref) (name : string) (cb : native) : Prop :=
  ∃ o r fn,
    heap st !! exports = Some o ∧
    props o !! name = Some (DataProperty (VObject r) true) ∧
    heap st !! r = Some fn ∧
    kind fn = FunctionObject cb.

(** ** Reading results *)

(** The state of the promise a value refers to, if it refers to one. *)
Definition promise_state (st : EnvState) (v : value) : option PromiseState :=
  match v with
  | VObject r =>
      match heap st !! r with
      | Some {| kind := PromiseObject s |} => Some s
      | _ => None
      end
  | _ => None
  end.

(** The record [ShowNotification] builds when both assignments write. *)
Definition unavailable_record (st : EnvState) : JSObject :=
  {| kind := Ordinary;
     proto := Some (object_prototype (realm st));
     extensible := true;
     props :=
       <["error" := DataProperty
           (VString "Native notifications not available on this platform") true]>
       (<["success" := DataProperty (VBoolean false) true]> ∅) |}.

(** A state is well formed when the allocation counter is above every
    reference in use. *)
Definition wf (st : EnvState) : Prop :=
  map_Forall (λ r _, r < next st) (heap st).

#[global] Instance wf_dec (st : EnvState) : Decision (wf st).
Proof. unfold wf. apply _. Defined.

(** [Object.prototype] is in place, below the allocation counter and without
    prototype of its own, and has no property under any of [keys]. *)
Definition unpolluted (keys : list string) (st : EnvState) : bool :=
  match heap st !! object_prototype (realm st) with
  | Some P =>
      bool_decide (object_prototype (realm st) < next st) &&
      bool_decide (proto P = None) &&
      forallb (λ key, bool_decide (props P !! key = None)) keys
  | None => false
  end.

(** The property names [ShowNotification] writes or [Resolve] reads on the
    record. *)
Definition record_keys : list string := ["success"; "error"; "then"].

(** What an assignment may find along the chain and still create an own
    property: nothing, or a writable data property. *)
Definition assignable (p : option Property) : bool :=
  match p with
  | None | Some (DataProperty _ true) => true
  | Some (DataProperty _ false) | Some (AccessorProperty _ _) => false
  end.

(** A [then] that calls no function and gives none: no property, a data
    property that holds no function, or an accessor without getter. *)
Definition inert_then (h : gmap ref JSObject) (p : option Property) : bool :=
  match p with
  | None => true
  | Some (DataProperty v _) => negb (is_callable h v)
  | Some (AccessorProperty getter _) => negb (is_callable h getter)
  end.

(** [Object.prototype] does not interfere with the record of
    [ShowNotification]: it is in place, below the allocation counter and
    without prototype of its own; under success and under error it has no
    accessor and no read-only property; its [then], if any, is inert. *)
Definition record_safe (st : EnvState) : bool :=
  match heap st !! object_prototype (realm st) with
  | Some P =>
      bool_decide (object_prototype (realm st) < next st) &&
      bool_decide (proto P = None) &&
      assignable (props P !! "success") &&
      assignable (props P !! "error") &&
      inert_then (heap st) (props P !! "then")
  | None => false
  end.

(** What a caller can see of a value: primitives as they are, objects by
    their slot and own properties, followed through at most [depth]
    references. *)
#[warnings="-register-all"] Inductive observed :=
| OCut
| ODangling
| OUndefined
| ONull
| OBoolean (b : bool)
| ONumber (x : float)
| OString (s : string)
| OObject (k : observed_kind) (fields : list (string * observed_property))
with observed_kind :=
| OOrdinary
| OPending
| OFulfilled (v : observed)
| ORejected (reason : observed)
| OFunction (f : native)
| OHostFunction (code : nat)
| OError (name : string)
with observed_property :=
| OData (v : observed) (writable : bool)
| OAccessor (getter setter : observed).

Fixpoint observe (depth : nat) (h : gmap ref JSObject) (v : value) : observed :=
  match v with
  | VUndefined => OUndefined
  | VNull => ONull
  | VBoolean b => OBoolean b
  | VNumber x => ONumber x
  | VString s => OString s
  | VObject r =>
      match depth with
      | 0 => OCut
      | S d =>
          match h !! r with
          | None => ODangling
          | Some o =>
              OObject
                (match kind o with
                 | Ordinary => OOrdinary
                 | PromiseObject Pending => OPending
                 | PromiseObject (Fulfilled x) => OFulfilled (observe d h x)
                 | PromiseObject (Rejected x) => ORejected (observe d h x)
                 | FunctionObject f => OFunction f
                 | HostFunction c => OHostFunction c
                 | ErrorObject n => OError n
                 end)
                (prod_map id
                   (λ p, match p with
                         | DataProperty x w => OData (observe d h x) w
                         | AccessorProperty g s =>
                             OAccessor (observe d h g) (observe d h s)
                         end)
                   <$> map_to_list (props o))
          end
      end
  end.

Definition observe_thrown (depth : nat) (h : gmap ref JSObject) (e : exception)
  : observed + napi_status :=
  match e with
  | JSException v => inl (observe depth h v)
  | NapiError s => inr s
  end.

(** What a caller sees of a call: the value returned, or what was thrown. *)
Definition observe_outcome (depth : nat) (r : outcome value * EnvState)
  : observed + (observed + napi_status) :=
  match r.1 with
  | Returned v => inl (observe depth (heap r.2) v)
  | Thrown e => inr (observe_thrown depth (heap r.2) e)
  end.

(** ** Sequences of calls *)

Record call := mkCall {
  call_op : native;
  call_info : CallbackInfo
}.

Definition do_call `{Engine} (c : call) : Napi value :=
  native_code (call_op c) (call_info c).

(** The state after a sequence of calls. *)
Fixpoint exec `{Engine} (calls : list call) (st : EnvState) : EnvState :=
  match calls with
  | [] => st
  | c :: cs => exec cs (do_call c st).2
  end.


Definition no_arguments : CallbackInfo :=
  {| info_Env := env_handle; info_This := VUndefined; info_args := [] |}.

(** An engine whose host functions do nothing and return undefined. *)
Definition idle_engine : Engine := λ _ _ _, ret VUndefined.

(** What an operation gives on its first call, without arguments, in the
    small environment, where no function of the host exists. *)
Definition first_result (depth : nat) (f : native) : observed + (observed + napi_status) :=
  observe_outcome depth (native_code (H := idle_engine) f no_arguments initial_env).

(** A promise fulfilled with [v], as [Resolve] leaves it. *)
Definition settled_promise (st : EnvState) (v : value) : JSObject :=
  {| kind := PromiseObject (Fulfilled v);
     proto := Some (promise_prototype (realm st));
     extensible := true;
     props := ∅ |}.

(** ** Classification of results *)

(** [napi_typeof]. *)
Inductive napi_valuetype :=
| napi_undefined
| napi_null
| napi_boolean
| napi_number
| napi_string
| napi_object
| napi_function.

Definition typeof (st : EnvState) (v : value) : option napi_valuetype :=
  match v with
  | VUndefined => Some napi_undefined
  | VNull => Some napi_null
  | VBoolean _ => Some napi_boolean
  | VNumber _ => Some napi_number
  | VString _ => Some napi_string
  | VObject r =>
      match heap st !! r with
      | Some {| kind := FunctionObject _ |} => Some napi_function
      | Some {| kind := HostFunction _ |} => Some napi_function
      | Some _ => Some napi_object
      | None => None
      end
  end.

(** The operations that hand out the promise of a deferred. *)
Definition asynchronous (f : native) : bool :=
  match f with
  | NRequestPermission | NGetPermissionStatus | NShowNotification => true
  | NIsAvailable | NRemoveNotification | NRemoveAllNotifications => false
  end.

(** What a caller ends up with: the value itself when it is not a promise,
    the fulfilment value of a fulfilled promise, nothing otherwise. *)
Definition delivered (st : EnvState) (v : value) : option value :=
  match promise_state st v with
  | None => Some v
  | Some (Fulfilled x) => Some x
  | Some Pending | Some (Rejected _) => None
  end.

(** Modelled from the spec: the enumerated permission-status values of the
    data model ("granted", "denied", "not-determined"); the type is declared
    by the platform backend, which is not part of this file. *)
Definition permission_status_values : list string :=
  ["granted"; "denied"; "not-determined"].

(** Follows the spec's words: the inert negative result each operation
    conveys (false, "denied", success=false plus message, or nothing). *)
Definition negative_result (f : native) (st : EnvState) (x : value) : Prop :=
  match f with
  | NIsAvailable | NRequestPermission => x = VBoolean false
  | NGetPermissionStatus => x = VString "denied"
  | NShowNotification =>
      ∃ o rec, x = VObject o ∧ heap st !! o = Some rec ∧
        props rec !! "success" = Some (DataProperty (VBoolean false) true) ∧
        props rec !! "error" =
          Some (DataProperty
                  (VString "Native notifications not available on this platform")
                  true)
  | NRemoveNotification | NRemoveAllNotifications => x = VUndefined
  end.

(** ** Shapes of objects and environments *)

Definition export_names : list string := export_table.*1.

(** [r] is an ordinary object below the allocation counter whose prototype
    is [Object.prototype] and which has no own property under any of
    [keys]. *)
Definition bare_object (keys : list string) (st : EnvState) (r : ref) : bool :=
  match heap st !! r with
  | Some o =>
      match kind o with Ordinary => true | _ => false end &&
      bool_decide (r < next st) &&
      bool_decide (proto o = Some (object_prototype (realm st))) &&
      forallb (λ key, bool_decide (props o !! key = None)) keys
  | None => false
  end.

Definition is_extensible (st : EnvState) (r : ref) : bool :=
  match heap st !! r with
  | Some o => extensible o
  | None => false
  end.

(** [Object.prototype.then] is a data property holding a function. *)
Definition then_inherited (st : EnvState) : bool :=
  match heap st !! object_prototype (realm st) with
  | Some P =>
      match props P !! "then" with
      | Some (DataProperty f _) => is_callable (heap st) f
      | _ => false
      end
  | None => false
  end.

(** ** Polluted environments *)

(** The small environment with one function of the host, at reference 4,
    and [properties] on [Object.prototype]. *)
Definition polluted_env (properties : gmap string Property) : EnvState :=
  {| heap := <[4 := {| kind := HostFunction 0;
                       proto := Some 1;
                       extensible := true;
                       props := ∅ |}]>
             (<[0 := with_props properties (prototype_object None)]>
                (heap initial_env));
     next := 5;
     jobs := [];
     realm := realm initial_env |}.

(** [Object.prototype.then = function () { ... }]. *)
Definition then_polluted_env : EnvState :=
  polluted_env {["then" := DataProperty (VObject 4) true]}.

(** [Object.defineProperty(Object.prototype, "success", { set: f })]. *)
Definition setter_polluted_env : EnvState :=
  polluted_env {["success" := AccessorProperty VUndefined (VObject 4)]}.

(** The small environment with one more object, at reference 4: an exports
    object that already has a property [version], extensible and writable
    when [open] is true, frozen otherwise. *)
Definition exports_env (open : bool) : EnvState :=
  {| heap := <[4 := {| kind := Ordinary;
                       proto := Some 0;
                       extensible := open;
                       props := {["version" := DataProperty (VString "1") open]} |}]>
             (heap initial_env);
     next := 5;
     jobs := [];
     realm := realm initial_env |}.

(** An engine whose host functions throw a new [RangeError]. *)
Definition throwing_engine : Engine :=
  λ _ _ _ st,
    (Thrown (JSException (VObject (next st))), (new_error "RangeError" st).2).


(** ** Equations of the primitives *)

Ltac lookup_inserts :=
  repeat first
    [ rewrite lookup_insert_eq
    | rewrite lookup_insert_ne by (first [lia | done]) ].

Section bind_steps.
Context {A B : Type} (m : Napi A) (k : A → Napi B).

Lemma bind_Returned st a st' :
  m st = (Returned a, st') → bind m k st = k a st'.
Proof. intros E. unfold bind. by rewrite E. Qed.

Lemma bind_Returned_inv st b st' :
  bind m k st = (Returned b, st') →
  ∃ a st1, m st = (Returned a, st1) ∧ k a st1 = (Returned b, st').
Proof.
  unfold bind. destruct (m st) as [[a | e] st1]; [eauto | discriminate].
Qed.

Lemma bind_next st :
  (∀ st0, next st0 ≤ next (m st0).2) →
  (∀ a st0, next st0 ≤ next (k a st0).2) →
  next st ≤ next (bind m k st).2.
Proof.
  intros Hm Hk. unfold bind. specialize (Hm st).
  destruct (m st) as [[a | e] st1]; cbn [snd] in *; [| done].
  etrans; [exact Hm | apply Hk].
Qed.
End bind_steps.

Lemma unpolluted_spec keys st :
  unpolluted keys st = true →
  ∃ P,
    heap st !! object_prototype (realm st) = Some P ∧
    object_prototype (realm st) < next st ∧
    proto P = None ∧
    ∀ key, key ∈ keys → props P !! key = None.
Proof.
  unfold unpolluted. destruct (heap st !! _) as [P |]; [| done].
  rewrite !andb_true_iff, !bool_decide_eq_true, forallb_forall.
  intros [[Hlt Hproto] Hkeys]. exists P. repeat split; [done .. |].
  intros key Hkey. apply list_elem_of_In, Hkeys in Hkey.
  by apply bool_decide_eq_true in Hkey.
Qed.

Lemma unpolluted_intro keys st P :
  heap st !! object_prototype (realm st) = Some P →
  object_prototype (realm st) < next st →
  proto P = None →
  (∀ key, key ∈ keys → props P !! key = None) →
  unpolluted keys st = true.
Proof.
  intros HP Hlt Hproto Hkeys. unfold unpolluted. rewrite HP.
  rewrite !andb_true_iff, !bool_decide_eq_true, forallb_forall.
  repeat split; [done .. |].
  intros key Hkey. apply bool_decide_eq_true, Hkeys. by apply list_elem_of_In.
Qed.

Lemma unpolluted_weaken keys keys' st :
  keys' ⊆ keys → unpolluted keys st = true → unpolluted keys' st = true.
Proof.
  intros Hsub (P & HP & Hlt & Hproto & Hkeys)%unpolluted_spec.
  apply (unpolluted_intro _ _ P); auto.
Qed.

Lemma record_safe_spec st :
  record_safe st = true →
  ∃ P,
    heap st !! object_prototype (realm st) = Some P ∧
    object_prototype (realm st) < next st ∧
    proto P = None ∧
    assignable (props P !! "success") = true ∧
    assignable (props P !! "error") = true ∧
    inert_then (heap st) (props P !! "then") = true.
Proof.
  unfold record_safe. destruct (heap st !! _) as [P |]; [| done].
  rewrite !andb_true_iff, !bool_decide_eq_true.
  intros [[[[Hlt Hproto] Hsuccess] Herror] Hthen]. by exists P.
Qed.

Lemma record_safe_intro st P :
  heap st !! object_prototype (realm st) = Some P →
  object_prototype (realm st) < next st →
  proto P = None →
  assignable (props P !! "success") = true →
  assignable (props P !! "error") = true →
  inert_then (heap st) (props P !! "then") = true →
  record_safe st = true.
Proof.
  intros HP Hlt Hproto Hsuccess Herror Hthen. unfold record_safe. rewrite HP.
  by rewrite !andb_true_iff, !bool_decide_eq_true.
Qed.

Lemma unpolluted_record_safe st :
  unpolluted record_keys st = true → record_safe st = true.
Proof.
  intros (P & HP & Hlt & Hproto & Hkeys)%unpolluted_spec.
  apply (record_safe_intro _ P); try done;
    rewrite Hkeys; try done; apply list_elem_of_In; cbn; tauto.
Qed.

(** A value that holds no function still holds none once objects that are
    no functions have been put in the heap. *)
Lemma is_callable_stays_false h h' v :
  (∀ r, h' !! r = h !! r ∨
        ∃ o, h' !! r = Some o ∧
             match kind o with
             | FunctionObject _ | HostFunction _ => False
             | _ => True
             end) →
  is_callable h v = false → is_callable h' v = false.
Proof.
  intros Hh. destruct v as [| | | | |r]; try done. cbn.
  destruct (Hh r) as [-> | (o & -> & Ho)]; [done |].
  intros _. by destruct o as [[] ? ? ?].
Qed.

Lemma inert_then_stays h h' p :
  (∀ r, h' !! r = h !! r ∨
        ∃ o, h' !! r = Some o ∧
             match kind o with
             | FunctionObject _ | HostFunction _ => False
             | _ => True
             end) →
  inert_then h p = true → inert_then h' p = true.
Proof.
  intros Hh. destruct p as [[v w | getter setter] |]; cbn; try done;
    rewrite !negb_true_iff; by apply is_callable_stays_false.
Qed.

(** What is found under [key] on an object that has no such property of
    its own and whose prototype ends the chain: what the prototype has. *)
Lemma lookup_chain_via_prototype h r o parent P key :
  h !! r = Some o → props o !! key = None → proto o = Some parent →
  h !! parent = Some P → proto P = None →
  lookup_chain h r key = props P !! key.
Proof.
  intros Hr Ho Hparent HP HPproto. unfold lookup_chain.
  cbn. rewrite Hr, Ho, Hparent.
  destruct (size h) as [|n] eqn:Hsize.
  - apply map_size_empty_iff in Hsize. subst h. by rewrite lookup_empty in Hr.
  - cbn. rewrite HP, HPproto. by destruct (props P !! key).
Qed.

(** Nothing is found under [key] on an object that has no such property and
    whose prototype has none either and ends the chain. *)
Lemma find_property_absent fuel h r o parent P key :
  h !! r = Some o → props o !! key = None → proto o = Some parent →
  h !! parent = Some P → props P !! key = None → proto P = None →
  find_property fuel h r key = None.
Proof.
  intros Hr Ho Hparent HP HPkey HPproto.
  destruct fuel as [|fuel]; [done |]. cbn. rewrite Hr, Ho, Hparent.
  destruct fuel as [|fuel]; [done |]. cbn. by rewrite HP, HPkey, HPproto.
Qed.

Lemma Object_New_eq env st :
  Object.New env st =
    (Returned (next st),
     {| heap := <[next st := {| kind := Ordinary;
                                proto := Some (object_prototype (realm st));
                                extensible := true;
                                props := ∅ |}]> (heap st);
        next := S (next st);
        jobs := jobs st;
        realm := realm st |}).
Proof. reflexivity. Qed.

Lemma Deferred_New_eq env st :
  Promise.Deferred.New env st =
    (Returned {| Promise._env := env;
                 Promise._deferred := next st;
                 Promise._promise := VObject (next st) |},
     {| heap := <[next st := {| kind := PromiseObject Pending;
                                proto := Some (promise_prototype (realm st));
                                extensible := true;
                                props := ∅ |}]> (heap st);
        next := S (next st);
        jobs := jobs st;
        realm := realm st |}).
Proof. reflexivity. Qed.

Lemma Function_New_eq env cb st :
  Function.New env cb st =
    (Returned (VObject (next st)),
     {| heap := <[next st := function_object st cb]> (heap st);
        next := S (next st);
        jobs := jobs st;
        realm := realm st |}).
Proof. reflexivity. Qed.

Lemma settle_eq r s p st :
  heap st !! r = Some p →
  settle r s st = with_heap (<[r := with_kind (PromiseObject s) p]> (heap st)) st.
Proof. intros E. unfold settle. by rewrite E. Qed.

Section primitives.
Context `{Engine}.

Lemma Object_Set_create obj o key v st :
  heap st !! obj = Some o → extensible o = true →
  lookup_chain (heap st) obj key = None →
  Object.Set_ obj key v st =
    (Returned tt,
     with_heap
       (<[obj := with_props (<[key := DataProperty v true]> (props o)) o]>
          (heap st)) st).
Proof. intros Ho Hext Hkey. unfold Object.Set_. by rewrite Ho, Hkey, Hext. Qed.

(** An assignment creates the own property on an extensible object that
    has none, unless an accessor or a read-only property is in the way. *)
Lemma Object_Set_assignable obj o key v st :
  heap st !! obj = Some o → extensible o = true → props o !! key = None →
  assignable (lookup_chain (heap st) obj key) = true →
  Object.Set_ obj key v st =
    (Returned tt,
     with_heap
       (<[obj := with_props (<[key := DataProperty v true]> (props o)) o]>
          (heap st)) st).
Proof.
  intros Ho Hext Hown Hfound. unfold Object.Set_. rewrite Ho.
  destruct (lookup_chain _ _ _) as [[x [] | getter setter] |]; try done;
    by rewrite ?Hown, Hext.
Qed.

(** A non-extensible object without the property is left as it is. *)
Lemma Object_Set_sealed obj o key v st :
  heap st !! obj = Some o → extensible o = false →
  lookup_chain (heap st) obj key = None →
  Object.Set_ obj key v st = (Returned tt, st).
Proof. intros Ho Hext Hkey. unfold Object.Set_. by rewrite Ho, Hkey, Hext. Qed.

Lemma Object_Get_absent obj o key st :
  heap st !! obj = Some o →
  lookup_chain (heap st) obj key = None →
  Object.Get obj key st = (Returned VUndefined, st).
Proof. intros Ho Hkey. unfold Object.Get. by rewrite Ho, Hkey. Qed.

Lemma Object_Get_data obj o key v w st :
  heap st !! obj = Some o →
  lookup_chain (heap st) obj key = Some (DataProperty v w) →
  Object.Get obj key st = (Returned v, st).
Proof. intros Ho Hkey. unfold Object.Get. by rewrite Ho, Hkey. Qed.

Lemma Deferred_Resolve_primitive d p v st :
  heap st !! Promise._deferred d = Some p →
  kind p = PromiseObject Pending →
  (∀ r, v ≠ VObject r) →
  Promise.Deferred.Resolve d v st =
    (Returned tt,
     with_heap
       (<[Promise._deferred d := with_kind (PromiseObject (Fulfilled v)) p]>
          (heap st)) st).
Proof.
  intros Hp Hkind Hv. unfold Promise.Deferred.Resolve. rewrite Hp.
  destruct p as [k pr ext ps]. cbn in Hkind. subst k.
  destruct v as [| | | | |t]; try by erewrite settle_eq.
  by destruct (Hv t).
Qed.

(** Resolving with an object whose [then] is inert. *)
Lemma Deferred_Resolve_inert d p t o st :
  heap st !! Promise._deferred d = Some p →
  kind p = PromiseObject Pending →
  t ≠ Promise._deferred d →
  heap st !! t = Some o →
  inert_then (heap st) (lookup_chain (heap st) t "then") = true →
  Promise.Deferred.Resolve d (VObject t) st =
    (Returned tt,
     with_heap
       (<[Promise._deferred d :=
            with_kind (PromiseObject (Fulfilled (VObject t))) p]>
          (heap st)) st).
Proof.
  intros Hp Hkind Hne Ht Hthen. unfold Promise.Deferred.Resolve. rewrite Hp.
  destruct p as [k pr ext ps]. cbn in Hkind. subst k.
  rewrite decide_False by done. unfold Object.Get. rewrite Ht.
  destruct (lookup_chain _ _ _) as [[v w | getter setter] |];
    cbn in Hthen; rewrite ?negb_true_iff in Hthen; rewrite ?Hthen;
    cbn [is_callable]; by erewrite settle_eq.
Qed.

(** Resolving with an object whose [then] is a data property holding a
    function: the promise stays pending and a job is queued. *)
Lemma Deferred_Resolve_thenable d p t o f w st :
  heap st !! Promise._deferred d = Some p →
  kind p = PromiseObject Pending →
  t ≠ Promise._deferred d →
  heap st !! t = Some o →
  lookup_chain (heap st) t "then" = Some (DataProperty f w) →
  is_callable (heap st) f = true →
  Promise.Deferred.Resolve d (VObject t) st =
    (Returned tt,
     {| heap := heap st;
        next := next st;
        jobs := jobs st ++ [{| job_promise := Promise._deferred d;
                               job_thenable := t;
                               job_then := f |}];
        realm := realm st |}).
Proof.
  intros Hp Hkind Hne Ht Hthen Hf. unfold Promise.Deferred.Resolve. rewrite Hp.
  destruct p as [k pr ext ps]. cbn in Hkind. subst k.
  rewrite decide_False by done.
  rewrite (Object_Get_data _ _ _ _ _ _ Ht Hthen). by rewrite Hf.
Qed.

(** ** Closed forms of the six operations *)

Lemma IsAvailable_eq info st :
  IsAvailable info st = (Returned (VBoolean false), st).
Proof. reflexivity. Qed.

Lemma RemoveNotification_eq info st :
  RemoveNotification info st = (Returned VUndefined, st).
Proof. reflexivity. Qed.

Lemma RemoveAllNotifications_eq info st :
  RemoveAllNotifications info st = (Returned VUndefined, st).
Proof. reflexivity. Qed.

(** The shape shared by [RequestPermission] and [GetPermissionStatus]:
    create a deferred, resolve it with a primitive, return its promise. *)
Lemma resolve_with_primitive env (v : value) st :
  (∀ r, v ≠ VObject r) →
  (let* deferred := Promise.Deferred.New env in
   let* x := ret v in
   Promise.Deferred.Resolve deferred x ;;;
   ret (Promise.Deferred.Promise deferred)) st =
    (Returned (VObject (next st)),
     {| heap := <[next st := settled_promise st v]> (heap st);
        next := S (next st);
        jobs := jobs st;
        realm := realm st |}).
Proof.
  intros Hv.
  rewrite (bind_Returned _ _ _ _ _ (Deferred_New_eq env st)).
  rewrite (bind_Returned (ret v) _ _ v _ eq_refl).
  erewrite (bind_Returned (Promise.Deferred.Resolve _ _)).
  2:{ eapply Deferred_Resolve_primitive; [apply lookup_insert_eq | done ..]. }
  cbn. unfold with_heap. cbn. by rewrite insert_insert_eq.
Qed.

Lemma RequestPermission_eq info st :
  RequestPermission info st =
    (Returned (VObject (next st)),
     {| heap := <[next st := settled_promise st (VBoolean false)]> (heap st);
        next := S (next st);
        jobs := jobs st;
        realm := realm st |}).
Proof. by apply (resolve_with_primitive _ (VBoolean false)). Qed.

Lemma GetPermissionStatus_eq info st :
  GetPermissionStatus info st =
    (Returned (VObject (next st)),
     {| heap := <[next st := settled_promise st (VString "denied")]> (heap st);
        next := S (next st);
        jobs := jobs st;
        realm := realm st |}).
Proof. by apply (resolve_with_primitive _ (VString "denied")). Qed.
End primitives.

Ltac absent_on_record P :=
  eapply (find_property_absent _ _ _ _ _ P);
    [ by lookup_inserts
    | cbn [props]; by lookup_inserts
    | reflexivity
    | by lookup_inserts
    | done
    | done ].

Section closed_forms.
Context `{Engine}.

(** The heap in which the record is written to and resolved with: the heap
    before the call, a promise and an ordinary object. *)
Lemma record_heap_no_function (h : gmap ref JSObject) n p rec (r : ref) :
  kind rec = Ordinary → (∃ s, kind p = PromiseObject s) →
  <[S n := rec]> (<[n := p]> h) !! r = h !! r ∨
  ∃ o, <[S n := rec]> (<[n := p]> h) !! r = Some o ∧
       match kind o with
       | FunctionObject _ | HostFunction _ => False
       | _ => True
       end.
Proof.
  intros Hrec [s Hp].
  destruct (decide (r = S n)) as [-> | ?];
    [right; exists rec; rewrite lookup_insert_eq, Hrec; done |].
  destruct (decide (r = n)) as [-> | ?];
    [right; exists p; rewrite lookup_insert_ne, lookup_insert_eq, Hp by done; done |].
  left. by rewrite !lookup_insert_ne.
Qed.

(** In an environment whose [Object.prototype] does not interfere with the
    record, no function of the host runs: both assignments create an own
    property and the promise is fulfilled with the record. *)
Lemma ShowNotification_eq info st :
  record_safe st = true →
  ShowNotification info st =
    (Returned (VObject (next st)),
     {| heap := <[next st := settled_promise st (VObject (S (next st)))]>
                  (<[S (next st) := unavailable_record st]> (heap st));
        next := S (S (next st));
        jobs := jobs st;
        realm := realm st |}).
Proof.
  intros (P & HP & Hlt & Hproto & Hsuccess & Herror & Hthen)%record_safe_spec.
  unfold ShowNotification.
  rewrite (bind_Returned _ _ _ _ _ (Deferred_New_eq _ st)).
  rewrite (bind_Returned _ _ _ _ _ (Object_New_eq _ _)).
  rewrite (bind_Returned (Boolean.New _ _) _ _ (VBoolean false) _ eq_refl).
  cbn [heap next jobs realm].
  erewrite (bind_Returned (Object.Set_ _ _ _)).
  2:{ eapply Object_Set_assignable; cbn [heap];
        [apply lookup_insert_eq | done | done |].
      by erewrite (lookup_chain_via_prototype _ _ _ _ P) by
        first [by lookup_inserts | done]. }
  rewrite (bind_Returned (String.New _ _) _ _ (VString _) _ eq_refl).
  unfold with_heap, with_props. cbn [heap next jobs realm kind proto extensible props].
  rewrite insert_insert_eq.
  erewrite (bind_Returned (Object.Set_ _ _ _)).
  2:{ eapply Object_Set_assignable; cbn [heap];
        [apply lookup_insert_eq | done | cbn [props]; by lookup_inserts |].
      by erewrite (lookup_chain_via_prototype _ _ _ _ P) by
        first [by lookup_inserts | cbn [props]; by lookup_inserts | done]. }
  unfold with_heap, with_props. cbn [heap next jobs realm kind proto extensible props].
  rewrite insert_insert_eq.
  erewrite (bind_Returned (Promise.Deferred.Resolve _ _)).
  2:{ eapply Deferred_Resolve_inert; cbn [heap Promise._deferred];
        [ by lookup_inserts | done | lia | apply lookup_insert_eq |].
      erewrite (lookup_chain_via_prototype _ _ _ _ P) by
        first [by lookup_inserts | cbn [props]; by lookup_inserts | done].
      eapply inert_then_stays; [| exact Hthen].
      intros r. apply record_heap_no_function; cbn; eauto. }
  unfold with_heap, with_kind.
  cbn [heap next jobs realm kind proto extensible props Promise._deferred
       Promise.Deferred.Promise Promise._promise ret].
  rewrite (insert_insert_ne _ (S (next st)) (next st)) by lia.
  by rewrite insert_insert_eq.
Qed.

Lemma native_code_eq f info st :
  (f = NShowNotification → record_safe st = true) →
  native_code f info st =
    match f with
    | NIsAvailable => (Returned (VBoolean false), st)
    | NRequestPermission =>
        (Returned (VObject (next st)),
         {| heap := <[next st := settled_promise st (VBoolean false)]> (heap st);
            next := S (next st);
            jobs := jobs st;
            realm := realm st |})
    | NGetPermissionStatus =>
        (Returned (VObject (next st)),
         {| heap := <[next st := settled_promise st (VString "denied")]> (heap st);
            next := S (next st);
            jobs := jobs st;
            realm := realm st |})
    | NShowNotification =>
        (Returned (VObject (next st)),
         {| heap := <[next st := settled_promise st (VObject (S (next st)))]>
                      (<[S (next st) := unavailable_record st]> (heap st));
            next := S (S (next st));
            jobs := jobs st;
            realm := realm st |})
    | NRemoveNotification | NRemoveAllNotifications => (Returned VUndefined, st)
    end.
Proof.
  intros Hclean. destruct f; cbn [native_code];
    auto using IsAvailable_eq, RequestPermission_eq, GetPermissionStatus_eq,
      ShowNotification_eq, RemoveNotification_eq, RemoveAllNotifications_eq.
Qed.
End closed_forms.

(** ** Invariants and frame *)

Section invariants.
Context `{Engine}.

Ltac insert_cases H :=
  repeat (apply lookup_insert_Some in H as [[<- _] | [_ H]]; [cbn; lia |]).

Lemma native_code_wf f info st :
  (f = NShowNotification → record_safe st = true) →
  wf st → wf (native_code f info st).2.
Proof.
  intros Hclean Hwf r o. rewrite native_code_eq by done.
  destruct f; cbn [snd heap next]; intros Hr; try (by eapply Hwf);
    insert_cases Hr; apply Hwf in Hr; lia.
Qed.

Lemma native_code_next_clean f info st :
  (f = NShowNotification → record_safe st = true) →
  next st ≤ next (native_code f info st).2.
Proof. intros Hclean. rewrite native_code_eq by done. destruct f; cbn; lia. Qed.

(** A call leaves every object that existed before it as it was. *)
Lemma native_code_frame f info st r :
  (f = NShowNotification → record_safe st = true) →
  r < next st →
  heap (native_code f info st).2 !! r = heap st !! r.
Proof.
  intros Hclean Hr. rewrite native_code_eq by done.
  destruct f; cbn [snd heap]; try done; by lookup_inserts.
Qed.

Lemma native_code_jobs f info st :
  (f = NShowNotification → record_safe st = true) →
  jobs (native_code f info st).2 = jobs st.
Proof. intros Hclean. rewrite native_code_eq by done. by destruct f. Qed.

Lemma native_code_realm f info st :
  (f = NShowNotification → record_safe st = true) →
  realm (native_code f info st).2 = realm st.
Proof. intros Hclean. rewrite native_code_eq by done. by destruct f. Qed.

Lemma native_code_record_safe f info st :
  record_safe st = true → record_safe (native_code f info st).2 = true.
Proof.
  intros Hsafe.
  destruct (record_safe_spec _ Hsafe)
    as (P & HP & Hlt & Hproto & Hsuccess & Herror & Hthen).
  apply (record_safe_intro _ P); try done.
  - rewrite native_code_realm, native_code_frame by done. done.
  - rewrite native_code_realm by done.
    pose proof (native_code_next_clean f info st (λ _, Hsafe)). lia.
  - eapply inert_then_stays; [| exact Hthen].
    intros r. rewrite native_code_eq by done.
    destruct f; cbn [snd heap]; try (by left).
    + destruct (decide (r = next st)) as [-> | ?];
        [right; eexists; by rewrite lookup_insert_eq | left; by lookup_inserts].
    + destruct (decide (r = next st)) as [-> | ?];
        [right; eexists; by rewrite lookup_insert_eq | left; by lookup_inserts].
    + destruct (decide (r = next st)) as [-> | ?];
        [right; eexists; by rewrite lookup_insert_eq |].
      destruct (decide (r = S (next st))) as [-> | ?];
        [right; eexists; by lookup_inserts | left; by lookup_inserts].
Qed.

Lemma exec_wf calls st :
  record_safe st = true → wf st → wf (exec calls st).
Proof.
  revert st. induction calls as [|c cs IH]; intros st Hclean Hwf; [done |].
  cbn [exec]. unfold do_call.
  apply IH; [by apply native_code_record_safe | by apply native_code_wf].
Qed.

Lemma exec_next_clean calls st :
  record_safe st = true → next st ≤ next (exec calls st).
Proof.
  revert st. induction calls as [|c cs IH]; intros st Hclean; [done |].
  cbn [exec]. unfold do_call.
  etrans; [| apply IH; by apply native_code_record_safe].
  by apply native_code_next_clean.
Qed.

Lemma exec_frame calls st r :
  record_safe st = true → r < next st →
  heap (exec calls st) !! r = heap st !! r.
Proof.
  revert st. induction calls as [|c cs IH]; intros st Hclean Hr; [done |].
  cbn [exec]. unfold do_call. rewrite IH.
  - by apply native_code_frame.
  - by apply native_code_record_safe.
  - pose proof (native_code_next_clean (call_op c) (call_info c) st
                  (λ _, Hclean)). lia.
Qed.

End invariants.

(** ** Facts about the record and the promises *)

Lemma unavailable_record_success st :
  props (unavailable_record st) !! "success" =
    Some (DataProperty (VBoolean false) true).
Proof. reflexivity. Qed.

Lemma unavailable_record_error st :
  props (unavailable_record st) !! "error" =
    Some (DataProperty
            (VString "Native notifications not available on this platform") true).
Proof. reflexivity. Qed.

Lemma unavailable_record_dom st :
  dom (props (unavailable_record st)) = ({["success"; "error"]} : gset string).
Proof.
  unfold unavailable_record. cbn [props].
  rewrite !dom_insert_L, dom_empty_L. set_solver.
Qed.

Lemma promise_state_settled h n j rl st r v :
  promise_state
    {| heap := <[r := settled_promise st v]> h; next := n; jobs := j; realm := rl |}
    (VObject r) = Some (Fulfilled v).
Proof. cbn. by rewrite lookup_insert_eq. Qed.






Section history.
Context `{Engine}.



End history.

(** ** The allocation counter under any engine *)

Section counter.
Context `{Engine}.
Hypothesis host_call_next :
  ∀ fn this args st, next st ≤ next (host_call fn this args st).2.

Lemma settle_next r s st : next (settle r s st) = next st.
Proof. unfold settle. by destruct (heap st !! r). Qed.

Lemma Object_Get_next obj key st : next st ≤ next (Object.Get obj key st).2.
Proof.
  unfold Object.Get. destruct (heap st !! obj); [| done].
  destruct (lookup_chain _ _ _) as [[v w | getter setter] |]; try done.
  destruct (is_callable _ _); [apply host_call_next | done].
Qed.

Lemma Object_Set_next obj key v st : next st ≤ next (Object.Set_ obj key v st).2.
Proof.
  unfold Object.Set_. destruct (heap st !! obj) as [o |]; [| done].
  destruct (lookup_chain _ _ _) as [[x [] | getter setter] |]; try done.
  - by destruct (props o !! key), (extensible o).
  - destruct (is_callable _ _); [| done].
    pose proof (host_call_next setter (VObject obj) [v] st).
    by destruct (host_call _ _ _ _) as [[] ?].
  - by destruct (extensible o).
Qed.

Lemma Deferred_Resolve_next d v st :
  next st ≤ next (Promise.Deferred.Resolve d v st).2.
Proof.
  unfold Promise.Deferred.Resolve.
  destruct (heap st !! _) as [[[| [] | | |] ? ? ?] |]; try done.
  destruct v as [| | | | |t]; cbn [snd]; rewrite ?settle_next; try done.
  destruct (decide _); cbn [snd]; [rewrite settle_next; cbn; lia |].
  pose proof (Object_Get_next t "then" st).
  destruct (Object.Get _ _ _) as [[then_ | [s | e]] st1]; cbn [snd] in *;
    [| done | by rewrite settle_next].
  destruct (is_callable _ _); cbn [snd]; by rewrite ?settle_next.
Qed.

Lemma ShowNotification_next info st :
  next st ≤ next (ShowNotification info st).2.
Proof.
  unfold ShowNotification.
  repeat (apply bind_next; [| intros ? ?]);
    first [ apply Object_Set_next | apply Deferred_Resolve_next
          | cbn; lia | idtac ].
Qed.

Lemma native_code_next f info st :
  next st ≤ next (native_code f info st).2.
Proof.
  destruct f; cbn [native_code]; try done;
    first [ apply ShowNotification_next
          | rewrite RequestPermission_eq; cbn; lia
          | rewrite GetPermissionStatus_eq; cbn; lia ].
Qed.

Lemma exec_next calls st : next st ≤ next (exec calls st).
Proof.
  revert st. induction calls as [|c cs IH]; intros st; [done |].
  cbn [exec]. etrans; [| apply IH]. apply native_code_next.
Qed.

(** An asynchronous operation that returns gives the promise it allocated
    first, and the counter has moved past it. *)
Lemma asynchronous_returns f info st v st' :
  asynchronous f = true →
  native_code f info st = (Returned v, st') →
  v = VObject (next st) ∧ next st < next st'.
Proof.
  intros Hf. destruct f; try discriminate Hf; cbn [native_code].
  - rewrite RequestPermission_eq. intros [= <- <-]. cbn. split; [done | lia].
  - rewrite GetPermissionStatus_eq. intros [= <- <-]. cbn. split; [done | lia].
  - unfold ShowNotification.
    intros (d & st1 & Hnew & Hrest)%bind_Returned_inv.
    rewrite Deferred_New_eq in Hnew. injection Hnew as <- <-.
    apply bind_Returned_inv in Hrest as (result & st2 & Hobj & Hrest).
    rewrite Object_New_eq in Hobj. injection Hobj as <- <-.
    apply bind_Returned_inv in Hrest as (success & st3 & [= <- <-] & Hrest).
    apply bind_Returned_inv in Hrest as ([] & st4 & Hset1 & Hrest).
    apply bind_Returned_inv in Hrest as (error & st5 & [= <- <-] & Hrest).
    apply bind_Returned_inv in Hrest as ([] & st6 & Hset2 & Hrest).
    apply bind_Returned_inv in Hrest as ([] & st7 & Hres & [= <- <-]).
    split; [done |].
    repeat match goal with
      | E : Object.Set_ ?o ?k ?x ?s = _ |- _ =>
          let Hn := fresh "Hn" in
          pose proof (Object_Set_next o k x s) as Hn; rewrite E in Hn; clear E
      | E : Promise.Deferred.Resolve ?d ?x ?s = _ |- _ =>
          let Hn := fresh "Hn" in
          pose proof (Deferred_Resolve_next d x s) as Hn; rewrite E in Hn; clear E
      end.
    cbn [snd next] in *. lia.
Qed.
End counter.

(** ** First results *)

Example first_result_IsAvailable :
  first_result 2 NIsAvailable = inl (OBoolean false).
Proof. reflexivity. Qed.

Example first_result_RequestPermission :
  first_result 2 NRequestPermission =
    inl (OObject (OFulfilled (OBoolean false)) []).
Proof. vm_compute. reflexivity. Qed.

Example first_result_GetPermissionStatus :
  first_result 2 NGetPermissionStatus =
    inl (OObject (OFulfilled (OString "denied")) []).
Proof. vm_compute. reflexivity. Qed.

Example first_result_ShowNotification :
  first_result 2 NShowNotification =
    inl
      (OObject
         (OFulfilled
            (OObject OOrdinary
               [("success", OData (OBoolean false) true);
                ("error",
                 OData
                   (OString "Native notifications not available on this platform")
                   true)]))
         []).
Proof. vm_compute. reflexivity. Qed.

Example first_result_RemoveNotification :
  first_result 2 NRemoveNotification = inl OUndefined.
Proof. reflexivity. Qed.

Example first_result_RemoveAllNotifications :
  first_result 2 NRemoveAllNotifications = inl OUndefined.
Proof. reflexivity. Qed.

(** ** The contract of the facade *)

Section contract.
Context `{Engine}.

(** C1, as amended. For every callback info (whatever the descriptor passed,
    if any) and every environment whose [Object.prototype] does not
    interfere with the record (no accessor and no read-only property named
    success or error, and a [then], if any, that is neither a function nor a
    getter), [ShowNotification] returns a promise that is fulfilled, not
    rejected, with an ordinary object whose only properties are [success],
    equal to false, and [error], equal to the string "Native notifications
    not available on this platform". *)
Theorem ShowNotification_settles_unavailable (info : CallbackInfo) (st : EnvState) :
  record_safe st = true →
  ∃ p o rec st',
    ShowNotification info st = (Returned (VObject p), st') ∧
    promise_state st' (VObject p) = Some (Fulfilled (VObject o)) ∧
    (∀ reason, promise_state st' (VObject p) ≠ Some (Rejected reason)) ∧
    heap st' !! o = Some rec ∧
    kind rec = Ordinary ∧
    props rec !! "success" = Some (DataProperty (VBoolean false) true) ∧
    props rec !! "error" =
      Some (DataProperty
              (VString "Native notifications not available on this platform")
              true) ∧
    dom (props rec) = ({["success"; "error"]} : gset string).
Proof.
  intros Hclean.
  exists (next st), (S (next st)), (unavailable_record st). eexists.
  split; [by apply ShowNotification_eq |].
  rewrite promise_state_settled.
  do 2 (split; [done |]).
  split; [cbn [heap]; by lookup_inserts |].
  auto using unavailable_record_success, unavailable_record_error,
    unavailable_record_dom.
Qed.

(** C2. For every callback info and every environment, [IsAvailable] returns
    the boolean false itself, leaving the environment as it was; the value is
    a boolean and not a promise. *)
Theorem IsAvailable_returns_false (info : CallbackInfo) (st : EnvState) :
  IsAvailable info st = (Returned (VBoolean false), st) ∧
  typeof st (VBoolean false) = Some napi_boolean ∧
  promise_state st (VBoolean false) = None.
Proof. done. Qed.

(** C3. For every callback info and every environment, [RequestPermission]
    returns a promise that is fulfilled with the boolean false: it is not
    pending, not fulfilled with true and not rejected. *)
Theorem RequestPermission_settles_false (info : CallbackInfo) (st : EnvState) :
  ∃ p st',
    RequestPermission info st = (Returned (VObject p), st') ∧
    promise_state st' (VObject p) = Some (Fulfilled (VBoolean false)) ∧
    promise_state st' (VObject p) ≠ Some Pending ∧
    promise_state st' (VObject p) ≠ Some (Fulfilled (VBoolean true)) ∧
    ∀ reason, promise_state st' (VObject p) ≠ Some (Rejected reason).
Proof.
  exists (next st). eexists. split; [apply RequestPermission_eq |].
  rewrite promise_state_settled. done.
Qed.

(** C4. For every callback info and every environment, [GetPermissionStatus]
    returns a promise that is fulfilled with the string "denied" (so it is not
    rejected), and "denied" is one of the permission-status values. *)
Theorem GetPermissionStatus_settles_denied (info : CallbackInfo) (st : EnvState) :
  ∃ p st',
    GetPermissionStatus info st = (Returned (VObject p), st') ∧
    promise_state st' (VObject p) = Some (Fulfilled (VString "denied")) ∧
    (∀ reason, promise_state st' (VObject p) ≠ Some (Rejected reason)) ∧
    "denied" ∈ permission_status_values.
Proof.
  exists (next st). eexists. split; [apply GetPermissionStatus_eq |].
  rewrite promise_state_settled. repeat split; [done |].
  unfold permission_status_values. set_solver.
Qed.

(** C5. For every callback info (any identifier, null, or none at all) and
    every environment, [RemoveNotification] returns without throwing, leaves
    the environment exactly as it was and gives back undefined; so does
    [RemoveAllNotifications], also after any sequence of earlier calls. *)
Theorem removal_is_a_no_op (info : CallbackInfo) (st : EnvState) :
  RemoveNotification info st = (Returned VUndefined, st) ∧
  RemoveAllNotifications info st = (Returned VUndefined, st) ∧
  ∀ calls : list call,
    RemoveAllNotifications info (exec calls st) =
      (Returned VUndefined, exec calls st).
Proof. done. Qed.



(** C8. Each of the six operations ignores its callback info: called in the
    same environment with any two receivers and argument lists, it returns
    the same value and leaves the same environment. *)
Theorem native_code_ignores_arguments
    (f : native) (info1 info2 : CallbackInfo) (st : EnvState) :
  native_code f info1 st = native_code f info2 st.
Proof.
  destruct info1 as [[] this1 args1], info2 as [[] this2 args2].
  by destruct f.
Qed.

(** C9, as amended. None of the six operations throws, whatever the callback
    info and the environment ([ShowNotification]: in an environment whose
    [Object.prototype] does not interfere with the record, that is, has no
    accessor and no read-only property named success or error, and a [then],
    if any, that is neither a function nor a getter): each returns a value,
    the value is not a rejected promise, and what it delivers is the negative
    result of the operation. *)
Theorem native_code_never_fails (f : native) (info : CallbackInfo) (st : EnvState) :
  (f = NShowNotification → record_safe st = true) →
  ∃ v x st',
    native_code f info st = (Returned v, st') ∧
    (∀ reason, promise_state st' v ≠ Some (Rejected reason)) ∧
    delivered st' v = Some x ∧
    negative_result f st' x.
Proof.
  intros Hclean. rewrite native_code_eq by done.
  destruct f; do 3 eexists; (split; [reflexivity |]); unfold delivered;
    rewrite ?promise_state_settled; cbn [promise_state];
    (split; [done |]); (split; [reflexivity |]); cbn [negative_result];
    try done.
  exists (S (next st)), (unavailable_record st). cbn [heap].
  by lookup_inserts.
Qed.

(** C10. [RemoveNotification] and [RemoveAllNotifications] return the value
    undefined for every callback info and every environment: its type is
    undefined, it is not null, not an object and not a promise. *)
Theorem removal_returns_undefined (info : CallbackInfo) (st : EnvState) :
  ∃ v st1 st2,
    RemoveNotification info st = (Returned v, st1) ∧
    RemoveAllNotifications info st = (Returned v, st2) ∧
    v = VUndefined ∧
    typeof st1 v = Some napi_undefined ∧
    typeof st2 v = Some napi_undefined ∧
    v ≠ VNull ∧
    (∀ r, v ≠ VObject r) ∧
    promise_state st1 v = None ∧
    promise_state st2 v = None.
Proof. exists VUndefined, st, st. done. Qed.
End contract.

(** ** Witnesses and counterexamples *)

Lemma ShowNotification_settles_unavailable_witness :
  record_safe initial_env = true ∧
  ∃ p o rec st',
    ShowNotification (H := idle_engine) no_arguments initial_env
      = (Returned (VObject p), st') ∧
    promise_state st' (VObject p) = Some (Fulfilled (VObject o)) ∧
    (∀ reason, promise_state st' (VObject p) ≠ Some (Rejected reason)) ∧
    heap st' !! o = Some rec ∧
    kind rec = Ordinary ∧
    props rec !! "success" = Some (DataProperty (VBoolean false) true) ∧
    props rec !! "error" =
      Some (DataProperty
              (VString "Native notifications not available on this platform")
              true) ∧
    dom (props rec) = ({["success"; "error"]} : gset string).
Proof.
  split; [reflexivity |].
  apply (ShowNotification_settles_unavailable (H := idle_engine)
           no_arguments initial_env).
  reflexivity.
Defined.

(** C1, as stated, fails: with [Object.prototype.then] a function,
    [ShowNotification] returns a promise that is still pending, so it is not
    fulfilled with any record. *)
Lemma ShowNotification_pending_under_inherited_then :
  ¬ ∃ p o st',
      ShowNotification (H := idle_engine) no_arguments then_polluted_env
        = (Returned (VObject p), st') ∧
      promise_state st' (VObject p) = Some (Fulfilled (VObject o)).
Proof.
  intros (p & o & st' & Hcall & Hstate).
  pose proof (f_equal fst Hcall) as Hv.
  pose proof (f_equal snd Hcall) as Hst. cbn [fst snd] in Hv, Hst. subst st'.
  vm_compute in Hv. injection Hv as <-.
  vm_compute in Hstate. discriminate Hstate.
Qed.





Lemma native_code_never_fails_witness :
  (NShowNotification = NShowNotification →
   record_safe initial_env = true) ∧
  ∃ v x st',
    native_code (H := idle_engine) NShowNotification no_arguments initial_env
      = (Returned v, st') ∧
    (∀ reason, promise_state st' v ≠ Some (Rejected reason)) ∧
    delivered st' v = Some x ∧
    negative_result NShowNotification st' x.
Proof.
  split; [reflexivity |].
  apply (native_code_never_fails (H := idle_engine)
           NShowNotification no_arguments initial_env).
  reflexivity.
Defined.

(** C9, as stated, fails: with a throwing setter for [success] on
    [Object.prototype], [ShowNotification] throws what the setter throws and
    returns nothing. *)
Lemma native_code_throws_under_inherited_setter :
  observe_outcome 1
    (native_code (H := throwing_engine) NShowNotification no_arguments
       setter_polluted_env) = inr (inl (OObject (OError "RangeError") [])) ∧
  ¬ ∃ v st',
      native_code (H := throwing_engine) NShowNotification no_arguments
        setter_polluted_env = (Returned v, st').
Proof.
  split; [by vm_compute |].
  intros (v & st' & Hcall). apply (f_equal fst) in Hcall.
  vm_compute in Hcall. discriminate Hcall.
Qed.

(** ** The module table *)

Lemma bare_object_spec keys st r :
  bare_object keys st r = true →
  ∃ o,
    heap st !! r = Some o ∧
    kind o = Ordinary ∧
    r < next st ∧
    proto o = Some (object_prototype (realm st)) ∧
    ∀ key, key ∈ keys → props o !! key = None.
Proof.
  unfold bare_object. destruct (heap st !! r) as [o |]; [| done].
  rewrite !andb_true_iff, !bool_decide_eq_true, forallb_forall.
  intros [[[Hkind Hlt] Hproto] Hkeys]. exists o.
  split; [done |]. split; [by destruct (kind o) |]. do 2 (split; [done |]).
  intros key Hkey. apply list_elem_of_In, Hkeys in Hkey.
  by apply bool_decide_eq_true in Hkey.
Qed.

Lemma find_property_own fuel h r o key p :
  h !! r = Some o → props o !! key = Some p →
  find_property (S fuel) h r key = Some p.
Proof. intros Hr Hp. cbn. by rewrite Hr, Hp. Qed.

Lemma export_table_lookup name cb :
  (name, cb) ∈ export_table → ∃ k, export_table !! k = Some (name, cb).
Proof. apply list_elem_of_lookup_1. Qed.

Lemma export_names_lookup name :
  name ∈ export_names → ∃ k cb, export_table !! k = Some (name, cb).
Proof.
  intros ([name' cb] & -> & Hin)%list_elem_of_fmap.
  apply list_elem_of_lookup_1 in Hin as [k Hk]. eauto.
Qed.

Section module_table.
Context `{Engine}.

(** One line of [Init] on an extensible object that has no property [name],
    own or inherited: a function object is created and bound. *)
Lemma register_eq env e o parent P name cb st :
  heap st !! e = Some o → e ≠ next st →
  extensible o = true →
  props o !! name = None → proto o = Some parent →
  heap st !! parent = Some P → parent ≠ next st →
  props P !! name = None → proto P = None →
  (let* f := Function.New env cb in Object.Set_ e name f) st =
    (Returned tt,
     {| heap := <[e := with_props
                         (<[name := DataProperty (VObject (next st)) true]>
                            (props o)) o]>
                  (<[next st := function_object st cb]> (heap st));
        next := S (next st);
        jobs := jobs st;
        realm := realm st |}).
Proof.
  intros He Hne Hext Hown Hparent HP Hpne HPname HPproto.
  rewrite (bind_Returned _ _ _ _ _ (Function_New_eq env cb st)).
  erewrite Object_Set_create; [reflexivity | cbn [heap]; by lookup_inserts | done |].
  eapply (find_property_absent _ _ _ _ _ P); cbn [heap];
    [by lookup_inserts | done | done | by lookup_inserts | done | done].
Qed.

(** One line of [Init] on a non-extensible object that has no property
    [name], own or inherited: the function object is created and nothing is
    bound. *)
Lemma register_sealed_eq env e o parent P name cb st :
  heap st !! e = Some o → e ≠ next st →
  extensible o = false →
  props o !! name = None → proto o = Some parent →
  heap st !! parent = Some P → parent ≠ next st →
  props P !! name = None → proto P = None →
  (let* f := Function.New env cb in Object.Set_ e name f) st =
    (Returned tt,
     {| heap := <[next st := function_object st cb]> (heap st);
        next := S (next st);
        jobs := jobs st;
        realm := realm st |}).
Proof.
  intros He Hne Hext Hown Hparent HP Hpne HPname HPproto.
  rewrite (bind_Returned _ _ _ _ _ (Function_New_eq env cb st)).
  erewrite Object_Set_sealed; [reflexivity | cbn [heap]; by lookup_inserts | done |].
  eapply (find_property_absent _ _ _ _ _ P); cbn [heap];
    [by lookup_inserts | done | done | by lookup_inserts | done | done].
Qed.

(** What [Init] does when [exports] is an extensible object with
    [Object.prototype] as prototype and none of the six names is in use,
    neither on it nor on [Object.prototype]: the [k]-th entry of the table
    gets the [k]-th fresh reference. *)
Lemma Init_spec env e st :
  unpolluted export_names st = true →
  bare_object export_names st e = true →
  is_extensible st e = true →
  ∃ o st' o',
    heap st !! e = Some o ∧
    Init env e st = (Returned e, st') ∧
    next st' = 6 + next st ∧
    jobs st' = jobs st ∧
    realm st' = realm st ∧
    heap st' !! e = Some o' ∧
    kind o' = kind o ∧
    (∀ k name cb, export_table !! k = Some (name, cb) →
       props o' !! name = Some (DataProperty (VObject (k + next st)) true) ∧
       heap st' !! (k + next st) = Some (function_object st cb)) ∧
    (∀ name, name ∉ export_names → props o' !! name = props o !! name) ∧
    (∀ r, r ≠ e → r < next st → heap st' !! r = heap st !! r) ∧
    (wf st → wf st').
Proof.
  intros (P & HP & HPlt & HPproto & HPkeys)%unpolluted_spec
         (o & He & _ & Hlt & Hproto & Hown)%bare_object_spec Hext.
  unfold is_extensible in Hext. rewrite He in Hext.
  assert (Hne : object_prototype (realm st) ≠ e).
  { intros E. rewrite E in HP. congruence. }
  assert (Hnames : ∀ name, name ∈ export_names →
            props o !! name = None ∧ props P !! name = None) by auto.
  exists o. unfold Init.
  do 6 (erewrite bind_Returned;
        [| eapply (register_eq _ _ _ _ P); cbn [heap next realm];
           [ first [exact He | apply lookup_insert_eq]
           | lia
           | exact Hext
           | cbn [props with_props]; lookup_inserts;
             apply Hnames, list_elem_of_In; cbn; tauto
           | exact Hproto
           | by lookup_inserts
           | lia
           | apply Hnames, list_elem_of_In; cbn; tauto
           | exact HPproto ]];
        unfold with_props;
        cbn [kind proto extensible props heap next jobs realm]).
  eexists _, _. split; [done |]. split; [reflexivity |]. cbn [heap next jobs realm].
  do 3 (split; [reflexivity |]).
  split; [apply lookup_insert_eq |]. split; [reflexivity |].
  cbn [props]. split; [| split; [| split]].
  - intros k name cb Hk. unfold export_table in Hk.
    repeat (destruct k as [|k];
            [injection Hk as <- <-; cbn [Nat.add] | cbn in Hk]);
      try discriminate Hk;
      (split; [by lookup_inserts |]); by lookup_inserts.
  - intros name Hname.
    rewrite !lookup_insert_ne;
      [done | intros <-; apply Hname, list_elem_of_In; cbn; tauto ..].
  - intros r Hre Hr. by lookup_inserts.
  - intros Hwf r x Hr. cbn [heap next] in *.
    repeat (apply lookup_insert_Some in Hr as [[<- _] | [_ Hr]]; [lia |]).
    apply Hwf in Hr. lia.
Qed.
End module_table.

Section module_use.
Context `{Engine}.

(** What [Init] does when [exports] is not extensible and none of the six
    names is in use: six function objects are created, nothing is bound, and
    [exports] is returned as if all had gone well. *)
Lemma Init_sealed_spec env e st :
  unpolluted export_names st = true →
  bare_object export_names st e = true →
  is_extensible st e = false →
  ∃ st',
    Init env e st = (Returned e, st') ∧
    next st' = 6 + next st ∧
    jobs st' = jobs st ∧
    realm st' = realm st ∧
    ∀ r, r < next st → heap st' !! r = heap st !! r.
Proof.
  intros (P & HP & HPlt & HPproto & HPkeys)%unpolluted_spec
         (o & He & _ & Hlt & Hproto & Hown)%bare_object_spec Hext.
  unfold is_extensible in Hext. rewrite He in Hext.
  assert (Hnames : ∀ name, name ∈ export_names →
            props o !! name = None ∧ props P !! name = None) by auto.
  unfold Init.
  do 6 (erewrite bind_Returned;
        [| eapply (register_sealed_eq _ _ o _ P); cbn [heap next realm];
           [ by lookup_inserts
           | lia
           | exact Hext
           | apply Hnames, list_elem_of_In; cbn; tauto
           | exact Hproto
           | by lookup_inserts
           | lia
           | apply Hnames, list_elem_of_In; cbn; tauto
           | exact HPproto ]];
        cbn [heap next jobs realm]).
  eexists. split; [reflexivity |]. cbn [heap next jobs realm].
  do 3 (split; [reflexivity |]).
  intros r Hr. by lookup_inserts.
Qed.

Lemma call_export_native exports name cb args st :
  exports_function st exports name cb →
  call_export exports name args st =
    native_code cb {| info_Env := env_handle;
                      info_This := VObject exports;
                      info_args := args |} st.
Proof.
  intros (o & r & fn & He & Hname & Hr & Hkind).
  unfold call_export.
  erewrite (bind_Returned (Object.Get _ _)).
  2:{ eapply Object_Get_data; [done |]. by eapply find_property_own. }
  unfold call_function. rewrite Hr. destruct fn as [k ? ? ?].
  cbn in Hkind. by subst k.
Qed.

Lemma table_exports_function e o' n st st' name cb :
  heap st' !! e = Some o' →
  (∀ k name cb, export_table !! k = Some (name, cb) →
     props o' !! name = Some (DataProperty (VObject (k + n)) true) ∧
     heap st' !! (k + n) = Some (function_object st cb)) →
  (name, cb) ∈ export_table →
  exports_function st' e name cb.
Proof.
  intros He' Htable [k Hk]%export_table_lookup.
  destruct (Htable k name cb Hk) as [Hname Hfn].
  by exists o', (k + n), (function_object st cb).
Qed.

Lemma exports_function_exec calls st exports name cb :
  record_safe st = true → wf st →
  exports_function st exports name cb →
  exports_function (exec calls st) exports name cb.
Proof.
  intros Hclean Hwf (o & r & fn & He & Hname & Hr & Hkind).
  exists o, r, fn.
  rewrite !exec_frame by (first [done | by eapply Hwf]). done.
Qed.

Lemma is_callable_frame h h' v :
  (∀ r, is_Some (h !! r) → h' !! r = h !! r) →
  is_callable h v = true → is_callable h' v = true.
Proof.
  intros Hframe. destruct v as [| | | | |r]; try done. cbn.
  destruct (h !! r) as [o |] eqn:E; [| done].
  by rewrite Hframe, E by eauto.
Qed.

(** The property found on the prototype of an object that has none of its
    own under [key]. *)
Lemma lookup_chain_inherited h r o parent P key p :
  h !! r = Some o → props o !! key = None → proto o = Some parent →
  h !! parent = Some P → props P !! key = Some p →
  lookup_chain h r key = Some p.
Proof.
  intros Hr Ho Hparent HP HPkey. unfold lookup_chain.
  cbn. rewrite Hr, Ho, Hparent.
  destruct (size h) as [|n] eqn:Hsize.
  - apply map_size_empty_iff in Hsize. subst h. by rewrite lookup_empty in Hr.
  - by eapply find_property_own.
Qed.
End module_use.

(** ** Further properties: the module and the calls that follow it *)

Section further.
Context `{Engine}.

(** X1. When [exports] is an extensible ordinary object with
    [Object.prototype] as prototype, and none of the six names is a property
    of it or of [Object.prototype], [Init] returns [exports] without
    throwing, and each of the six names is then a function object of
    [exports] whose call runs the native function written under that name. *)
Theorem Init_binds_the_six_exports env e st :
  unpolluted export_names st = true →
  bare_object export_names st e = true →
  is_extensible st e = true →
  ∃ st',
    Init env e st = (Returned e, st') ∧
    ∀ name cb args, (name, cb) ∈ export_table →
      exports_function st' e name cb ∧
      call_export e name args st' =
        native_code cb {| info_Env := env_handle;
                          info_This := VObject e;
                          info_args := args |} st'.
Proof.
  intros Hclean Hbare Hext.
  destruct (Init_spec env e st Hclean Hbare Hext)
    as (o & st' & o' & _ & HInit & _ & _ & _ & He' & _ & Htable & _).
  exists st'. split; [done |]. intros name cb args Hin.
  assert (exports_function st' e name cb)
    by eauto using table_exports_function.
  split; [done |]. by apply call_export_native.
Qed.

(** X2. Under the same conditions [Init] only adds to [exports]: the object
    keeps its kind, every property under a name outside the table keeps its
    value, and the names it has afterwards are the six of the table together
    with those it had. *)
Theorem Init_keeps_other_properties env e st :
  unpolluted export_names st = true →
  bare_object export_names st e = true →
  is_extensible st e = true →
  ∃ o st' o',
    heap st !! e = Some o ∧
    Init env e st = (Returned e, st') ∧
    heap st' !! e = Some o' ∧
    kind o' = kind o ∧
    (∀ name, name ∉ export_names → props o' !! name = props o !! name) ∧
    dom (props o') = list_to_set export_names ∪ dom (props o).
Proof.
  intros Hclean Hbare Hext.
  destruct (Init_spec env e st Hclean Hbare Hext)
    as (o & st' & o' & He & HInit & _ & _ & _ & He' & Hkind & Htable & Hother & _).
  exists o, st', o'. do 5 (split; [done |]).
  apply set_eq. intros name.
  rewrite elem_of_union, !elem_of_dom, elem_of_list_to_set.
  destruct (decide (name ∈ export_names)) as [Hin | Hout].
  - destruct (export_names_lookup name Hin) as (k & cb & Hk).
    destruct (Htable k name cb Hk) as [-> _]. split; eauto.
  - rewrite (Hother name Hout). split; [by right | by intros [? | ?]].
Qed.

(** X3. Under the same conditions, in a well-formed environment, [Init]
    allocates exactly six objects and queues no promise job; every object
    other than [exports] that existed before is left as it was, and the
    environment stays well formed. *)
Theorem Init_frame env e st :
  wf st →
  unpolluted export_names st = true →
  bare_object export_names st e = true →
  is_extensible st e = true →
  ∃ st',
    Init env e st = (Returned e, st') ∧
    next st' = 6 + next st ∧
    jobs st' = jobs st ∧
    wf st' ∧
    ∀ r, r ≠ e → is_Some (heap st !! r) → heap st' !! r = heap st !! r.
Proof.
  intros Hwf Hclean Hbare Hext.
  destruct (Init_spec env e st Hclean Hbare Hext)
    as (o & st' & o' & _ & HInit & Hnext & Hjobs & _ & _ & _ & _ & _ & Hframe & Hwf').
  exists st'. do 3 (split; [done |]). split; [by apply Hwf' |].
  intros r Hre [x Hr]. apply Hframe; [done |]. by eapply Hwf.
Qed.

Lemma load_module_spec env st :
  unpolluted export_names st = true →
  ∃ st' o',
    load_module env st = (Returned (next st), st') ∧
    next st < next st' ∧
    realm st' = realm st ∧
    heap st' !! next st = Some o' ∧
    kind o' = Ordinary ∧
    dom (props o') = list_to_set export_names ∧
    (∀ name cb, (name, cb) ∈ export_table →
       exports_function st' (next st) name cb) ∧
    (∀ r, r < next st → heap st' !! r = heap st !! r) ∧
    (wf st → wf st').
Proof.
  intros Hclean.
  destruct (unpolluted_spec _ _ Hclean) as (P & HP & HPlt & HPproto & HPkeys).
  unfold load_module.
  rewrite (bind_Returned _ _ _ _ _ (Object_New_eq env st)).
  edestruct (Init_spec env (next st)) as
    (o & st' & o' & Ho & -> & Hnext & _ & Hrealm & He' & Hkind & Htable
       & Hother & Hframe & Hwf').
  { apply (unpolluted_intro _ _ P); cbn [heap next realm];
      [by lookup_inserts | lia | done | done]. }
  { unfold bare_object. cbn [heap next realm]. rewrite lookup_insert_eq.
    cbn [kind proto props].
    rewrite !andb_true_iff, !bool_decide_eq_true, forallb_forall.
    split; [split; [split; [done | lia] | done] |].
    intros key _. by apply bool_decide_eq_true. }
  { unfold is_extensible. cbn [heap]. by rewrite lookup_insert_eq. }
  cbn [heap next realm] in *. rewrite lookup_insert_eq in Ho.
  injection Ho as <-. cbn [kind props] in *.
  exists st', o'. split; [done |]. split; [lia |]. do 3 (split; [done |]).
  split; [| split; [| split]].
  - apply set_eq. intros name. rewrite elem_of_dom, elem_of_list_to_set.
    destruct (decide (name ∈ export_names)) as [Hin | Hout].
    + destruct (export_names_lookup name Hin) as (k & cb & Hk).
      destruct (Htable k name cb Hk) as [-> _]. split; eauto.
    + rewrite (Hother name Hout), lookup_empty. split; [by intros [] | done].
  - intros name cb Hin. eauto using table_exports_function.
  - intros r Hr. rewrite Hframe by lia. by lookup_inserts.
  - intros Hwf. apply Hwf'. intros r x Hr. cbn [heap next] in *.
    apply lookup_insert_Some in Hr as [[<- _] | [_ Hr]]; [lia |].
    apply Hwf in Hr. lia.
Qed.

(** X4. Loading the module into an environment whose [Object.prototype] has
    no property under any of the six names gives an ordinary object whose
    property names are exactly the six of the table, each bound to a
    function object of the native function written under that name. *)
Theorem load_module_exports_exactly_six env st :
  unpolluted export_names st = true →
  ∃ e o' st',
    load_module env st = (Returned e, st') ∧
    heap st' !! e = Some o' ∧
    kind o' = Ordinary ∧
    dom (props o') = list_to_set export_names ∧
    ∀ name cb, (name, cb) ∈ export_table →
      exports_function st' e name cb.
Proof.
  intros Hclean.
  destruct (load_module_spec env st Hclean)
    as (st' & o' & Hload & _ & _ & He' & Hkind & Hdom & Htable & _).
  by exists (next st), o', st'.
Qed.

(** X5. Once the module is loaded into a well-formed environment whose
    [Object.prototype] has no property under the six names nor under
    success, error or then, no sequence of calls of the six operations
    disturbs its table: after any such sequence, calling an export by its
    name still runs the native function written under that name. *)
Theorem exports_survive_calls env st :
  wf st →
  unpolluted (export_names ++ record_keys) st = true →
  ∃ exports st',
    load_module env st = (Returned exports, st') ∧
    ∀ calls name cb args, (name, cb) ∈ export_table →
      call_export exports name args (exec calls st') =
        native_code cb {| info_Env := env_handle;
                          info_This := VObject exports;
                          info_args := args |} (exec calls st').
Proof.
  intros Hwf Hclean.
  assert (Hnames : unpolluted export_names st = true).
  { apply (unpolluted_weaken _ _ _ (λ x Hx, proj2 (elem_of_app _ _ x) (or_introl Hx))
             Hclean). }
  assert (Hrecord : unpolluted record_keys st = true).
  { apply (unpolluted_weaken _ _ _ (λ x Hx, proj2 (elem_of_app _ _ x) (or_intror Hx))
             Hclean). }
  destruct (load_module_spec env st Hnames)
    as (st' & o' & Hload & Hnext & Hrealm & _ & _ & _ & Htable & Hframe & Hwf').
  exists (next st), st'. split; [done |].
  intros calls name cb args Hin.
  apply call_export_native, exports_function_exec; [| by apply Hwf' | by apply Htable].
  destruct (unpolluted_spec _ _ Hrecord) as (P & HP & HPlt & HPproto & HPkeys).
  apply unpolluted_record_safe.
  apply (unpolluted_intro _ _ P); rewrite ?Hrealm; try done; [| lia].
  by rewrite Hframe.
Qed.

(** X6. In a well-formed environment whose [Object.prototype] does not
    interfere with the record of [ShowNotification], no sequence of calls of
    the six operations changes an object that existed before it, such as a
    descriptor handed to [ShowNotification]; the environment stays well
    formed and the allocation counter never goes back. *)
Theorem calls_leave_existing_objects_alone (calls : list call) st r :
  wf st → record_safe st = true → is_Some (heap st !! r) →
  heap (exec calls st) !! r = heap st !! r ∧
  wf (exec calls st) ∧
  next st ≤ next (exec calls st).
Proof.
  intros Hwf Hclean [x Hr].
  split; [apply exec_frame; [done | by eapply Hwf] |].
  split; [by apply exec_wf | by apply exec_next_clean].
Qed.

(** X7. A promise is never handed out twice: under an engine whose calls
    never lower the allocation counter, when a call of an asynchronous
    operation returns a value, no later call of an asynchronous operation
    returns that value, whatever calls are made in between. *)
Theorem promises_are_never_reused
    (f g : native) (info1 info2 : CallbackInfo) (between : list call) st v :
  (∀ fn this args st0, next st0 ≤ next (host_call fn this args st0).2) →
  asynchronous f = true → asynchronous g = true →
  (native_code f info1 st).1 = Returned v →
  (native_code g info2 (exec between (native_code f info1 st).2)).1 ≠ Returned v.
Proof.
  intros Hengine Hf Hg Hfirst Hsecond.
  destruct (native_code f info1 st) as [o1 st1] eqn:E1. cbn [fst snd] in *.
  subst o1.
  destruct (asynchronous_returns Hengine f info1 st v st1 Hf E1) as [-> Hlt].
  pose proof (exec_next Hengine between st1) as Hnext.
  destruct (native_code g info2 (exec between st1)) as [o2 st2] eqn:E2.
  cbn [fst] in Hsecond. subst o2.
  destruct (asynchronous_returns Hengine g info2 _ _ st2 Hg E2) as [[= E] _].
  lia.
Qed.

(** X8. In a well-formed environment whose [Object.prototype] does not
    interfere with the record, the promise [ShowNotification]
    returns and the record that fulfils it are two new objects: neither
    existed before the call, so the record is not the descriptor nor any
    other object of the caller. *)
Theorem ShowNotification_result_is_fresh (info : CallbackInfo) st :
  wf st → record_safe st = true →
  ∃ p o st',
    ShowNotification info st = (Returned (VObject p), st') ∧
    promise_state st' (VObject p) = Some (Fulfilled (VObject o)) ∧
    p ≠ o ∧
    heap st !! p = None ∧
    heap st !! o = None.
Proof.
  intros Hwf Hclean.
  assert (Hfresh : ∀ r, next st ≤ r → heap st !! r = None).
  { intros r Hr. destruct (heap st !! r) eqn:E; [| done].
    apply Hwf in E. lia. }
  exists (next st), (S (next st)). eexists.
  split; [by apply ShowNotification_eq |].
  split; [apply promise_state_settled |].
  split; [lia |]. split; apply Hfresh; lia.
Qed.

(** X9. When [exports] is an ordinary object with [Object.prototype] as
    prototype that is not extensible (a frozen or sealed object, say), and
    none of the six names is a property of it or of [Object.prototype],
    [Init] still returns [exports] without throwing, but binds nothing: the
    object is left as it was and each of the six names reads as undefined. *)
Theorem Init_on_sealed_exports_binds_nothing env e st :
  unpolluted export_names st = true →
  bare_object export_names st e = true →
  is_extensible st e = false →
  ∃ st',
    Init env e st = (Returned e, st') ∧
    heap st' !! e = heap st !! e ∧
    ∀ name, name ∈ export_names →
      Object.Get e name st' = (Returned VUndefined, st').
Proof.
  intros Hclean Hbare Hext.
  destruct (Init_sealed_spec env e st Hclean Hbare Hext)
    as (st' & HInit & Hnext & _ & Hrealm & Hframe).
  destruct (unpolluted_spec _ _ Hclean) as (P & HP & HPlt & HPproto & HPkeys).
  destruct (bare_object_spec _ _ _ Hbare) as (o & He & _ & Hlt & Hproto & Hown).
  exists st'. split; [done |]. split; [by apply Hframe |].
  intros name Hname. eapply Object_Get_absent; [by rewrite Hframe |].
  eapply (find_property_absent _ _ _ o (object_prototype (realm st)) P);
    [ by rewrite Hframe | by apply Hown | done | by rewrite Hframe
    | by apply HPkeys | done ].
Qed.

(** X10. In a well-formed environment whose [Object.prototype] has a
    function as [then] and no property named success or error,
    [ShowNotification] builds the record in full but returns a promise that
    is still pending, with one promise job queued to follow the record. *)
Theorem ShowNotification_pending_when_then_is_inherited (info : CallbackInfo) st :
  wf st →
  unpolluted ["success"; "error"] st = true →
  then_inherited st = true →
  ∃ f st',
    ShowNotification info st = (Returned (VObject (next st)), st') ∧
    promise_state st' (VObject (next st)) = Some Pending ∧
    heap st' !! S (next st) = Some (unavailable_record st) ∧
    jobs st' = jobs st ++ [{| job_promise := next st;
                              job_thenable := S (next st);
                              job_then := f |}].
Proof.
  intros Hwf (P & HP & Hlt & Hproto & Hkeys)%unpolluted_spec Hthen.
  assert (Hsuccess : props P !! "success" = None) by (apply Hkeys; set_solver).
  assert (Herror : props P !! "error" = None) by (apply Hkeys; set_solver).
  unfold then_inherited in Hthen. rewrite HP in Hthen.
  destruct (props P !! "then") as [[f w | ? ?] |] eqn:HPthen; try done.
  exists f. unfold ShowNotification.
  rewrite (bind_Returned _ _ _ _ _ (Deferred_New_eq _ st)).
  rewrite (bind_Returned _ _ _ _ _ (Object_New_eq _ _)).
  rewrite (bind_Returned (Boolean.New _ _) _ _ (VBoolean false) _ eq_refl).
  cbn [heap next jobs realm].
  erewrite (bind_Returned (Object.Set_ _ _ _)).
  2:{ eapply Object_Set_create; cbn [heap];
        [apply lookup_insert_eq | done |].
      absent_on_record P. }
  rewrite (bind_Returned (String.New _ _) _ _ (VString _) _ eq_refl).
  unfold with_heap, with_props. cbn [heap next jobs realm kind proto extensible props].
  rewrite insert_insert_eq.
  erewrite (bind_Returned (Object.Set_ _ _ _)).
  2:{ eapply Object_Set_create; cbn [heap];
        [apply lookup_insert_eq | done |].
      absent_on_record P. }
  unfold with_heap, with_props. cbn [heap next jobs realm kind proto extensible props].
  rewrite insert_insert_eq.
  erewrite (bind_Returned (Promise.Deferred.Resolve _ _)).
  2:{ eapply (Deferred_Resolve_thenable _ _ _ _ f w);
        cbn [heap Promise._deferred];
        [ by lookup_inserts | done | lia | apply lookup_insert_eq | |].
      - eapply (lookup_chain_inherited _ _ _ _ P);
          [apply lookup_insert_eq | by cbn [props]; lookup_inserts | reflexivity
          | by lookup_inserts | done].
      - eapply is_callable_frame; [| exact Hthen].
        intros r [x Hr]. apply Hwf in Hr as Hr'. by lookup_inserts. }
  eexists. split; [reflexivity |]. cbn [heap jobs promise_state].
  split; [by lookup_inserts |]. split; [by lookup_inserts | done].
Qed.
End further.

Lemma Init_binds_the_six_exports_witness :
  unpolluted export_names (exports_env true) = true ∧
  bare_object export_names (exports_env true) 4 = true ∧
  is_extensible (exports_env true) 4 = true ∧
  ∃ st',
    Init (H := idle_engine) env_handle 4 (exports_env true) = (Returned 4, st') ∧
    ∀ name cb args, (name, cb) ∈ export_table →
      exports_function st' 4 name cb ∧
      call_export (H := idle_engine) 4 name args st' =
        native_code (H := idle_engine) cb
          {| info_Env := env_handle; info_This := VObject 4; info_args := args |}
          st'.
Proof.
  do 3 (split; [reflexivity |]).
  apply (Init_binds_the_six_exports (H := idle_engine) env_handle 4
           (exports_env true)); reflexivity.
Defined.

Lemma Init_keeps_other_properties_witness :
  unpolluted export_names (exports_env true) = true ∧
  bare_object export_names (exports_env true) 4 = true ∧
  is_extensible (exports_env true) 4 = true ∧
  ∃ o st' o',
    heap (exports_env true) !! 4 = Some o ∧
    Init (H := idle_engine) env_handle 4 (exports_env true) = (Returned 4, st') ∧
    heap st' !! 4 = Some o' ∧
    kind o' = kind o ∧
    (∀ name, name ∉ export_names → props o' !! name = props o !! name) ∧
    dom (props o') = list_to_set export_names ∪ dom (props o).
Proof.
  do 3 (split; [reflexivity |]).
  apply (Init_keeps_other_properties (H := idle_engine) env_handle 4
           (exports_env true)); reflexivity.
Defined.

Lemma Init_frame_witness :
  wf (exports_env true) ∧
  unpolluted export_names (exports_env true) = true ∧
  bare_object export_names (exports_env true) 4 = true ∧
  is_extensible (exports_env true) 4 = true ∧
  ∃ st',
    Init (H := idle_engine) env_handle 4 (exports_env true) = (Returned 4, st') ∧
    next st' = 6 + next (exports_env true) ∧
    jobs st' = jobs (exports_env true) ∧
    wf st' ∧
    ∀ r, r ≠ 4 → is_Some (heap (exports_env true) !! r) →
      heap st' !! r = heap (exports_env true) !! r.
Proof.
  split; [apply (bool_decide_unpack _); by vm_compute |].
  do 3 (split; [reflexivity |]).
  apply (Init_frame (H := idle_engine) env_handle 4 (exports_env true));
    [apply (bool_decide_unpack _); by vm_compute | reflexivity ..].
Defined.

Lemma load_module_exports_exactly_six_witness :
  unpolluted export_names initial_env = true ∧
  ∃ e o' st',
    load_module (H := idle_engine) env_handle initial_env = (Returned e, st') ∧
    heap st' !! e = Some o' ∧
    kind o' = Ordinary ∧
    dom (props o') = list_to_set export_names ∧
    ∀ name cb, (name, cb) ∈ export_table →
      exports_function st' e name cb.
Proof.
  split; [reflexivity |].
  apply (load_module_exports_exactly_six (H := idle_engine) env_handle
           initial_env).
  reflexivity.
Defined.

Lemma exports_survive_calls_witness :
  wf initial_env ∧
  unpolluted (export_names ++ record_keys) initial_env = true ∧
  ∃ exports st',
    load_module (H := idle_engine) env_handle initial_env
      = (Returned exports, st') ∧
    ∀ calls name cb args, (name, cb) ∈ export_table →
      call_export (H := idle_engine) exports name args
        (exec (H := idle_engine) calls st') =
      native_code (H := idle_engine) cb
        {| info_Env := env_handle; info_This := VObject exports;
           info_args := args |}
        (exec (H := idle_engine) calls st').
Proof.
  split; [apply (bool_decide_unpack _); by vm_compute |].
  split; [reflexivity |].
  apply (exports_survive_calls (H := idle_engine) env_handle initial_env);
    [apply (bool_decide_unpack _); by vm_compute | reflexivity].
Defined.

Lemma calls_leave_existing_objects_alone_witness :
  wf (exports_env true) ∧
  record_safe (exports_env true) = true ∧
  is_Some (heap (exports_env true) !! 4) ∧
  heap (exec (H := idle_engine)
          [ {| call_op := NShowNotification;
               call_info := {| info_Env := env_handle; info_This := VUndefined;
                               info_args := [VObject 4] |} |};
            {| call_op := NRemoveNotification; call_info := no_arguments |} ]
          (exports_env true)) !! 4
    = heap (exports_env true) !! 4 ∧
  wf (exec (H := idle_engine)
        [ {| call_op := NShowNotification;
             call_info := {| info_Env := env_handle; info_This := VUndefined;
                             info_args := [VObject 4] |} |};
          {| call_op := NRemoveNotification; call_info := no_arguments |} ]
        (exports_env true)) ∧
  next (exports_env true) ≤
    next (exec (H := idle_engine)
            [ {| call_op := NShowNotification;
                 call_info := {| info_Env := env_handle; info_This := VUndefined;
                                 info_args := [VObject 4] |} |};
              {| call_op := NRemoveNotification; call_info := no_arguments |} ]
            (exports_env true)).
Proof.
  split; [apply (bool_decide_unpack _); by vm_compute |].
  split; [reflexivity |].
  split; [apply (bool_decide_unpack _); by vm_compute |].
  apply (calls_leave_existing_objects_alone (H := idle_engine));
    [ apply (bool_decide_unpack _); by vm_compute
    | reflexivity
    | apply (bool_decide_unpack _); by vm_compute ].
Defined.

Lemma promises_are_never_reused_witness :
  (∀ fn this args st0,
     next st0 ≤ next (host_call (Engine := idle_engine) fn this args st0).2) ∧
  asynchronous NShowNotification = true ∧
  asynchronous NRequestPermission = true ∧
  (native_code (H := idle_engine) NShowNotification no_arguments initial_env).1
    = Returned (VObject 4) ∧
  (native_code (H := idle_engine) NRequestPermission no_arguments
     (exec (H := idle_engine)
        [ {| call_op := NGetPermissionStatus; call_info := no_arguments |} ]
        (native_code (H := idle_engine) NShowNotification no_arguments
           initial_env).2)).1
    ≠ Returned (VObject 4).
Proof.
  split; [intros fn this args st0; apply Nat.le_refl |].
  do 2 (split; [reflexivity |]).
  split; [by vm_compute |].
  apply (promises_are_never_reused (H := idle_engine));
    [ intros fn this args st0; apply Nat.le_refl
    | reflexivity | reflexivity | by vm_compute ].
Defined.

Lemma ShowNotification_result_is_fresh_witness :
  wf initial_env ∧
  record_safe initial_env = true ∧
  ∃ p o st',
    ShowNotification (H := idle_engine) no_arguments initial_env
      = (Returned (VObject p), st') ∧
    promise_state st' (VObject p) = Some (Fulfilled (VObject o)) ∧
    p ≠ o ∧
    heap initial_env !! p = None ∧
    heap initial_env !! o = None.
Proof.
  split; [apply (bool_decide_unpack _); by vm_compute |].
  split; [reflexivity |].
  apply (ShowNotification_result_is_fresh (H := idle_engine) no_arguments
           initial_env);
    [apply (bool_decide_unpack _); by vm_compute | reflexivity].
Defined.

Lemma Init_on_sealed_exports_binds_nothing_witness :
  unpolluted export_names (exports_env false) = true ∧
  bare_object export_names (exports_env false) 4 = true ∧
  is_extensible (exports_env false) 4 = false ∧
  ∃ st',
    Init (H := idle_engine) env_handle 4 (exports_env false) = (Returned 4, st') ∧
    heap st' !! 4 = heap (exports_env false) !! 4 ∧
    ∀ name, name ∈ export_names →
      Object.Get (H := idle_engine) 4 name st' = (Returned VUndefined, st').
Proof.
  do 3 (split; [reflexivity |]).
  apply (Init_on_sealed_exports_binds_nothing (H := idle_engine) env_handle 4
           (exports_env false)); reflexivity.
Defined.

Lemma ShowNotification_pending_when_then_is_inherited_witness :
  wf then_polluted_env ∧
  unpolluted ["success"; "error"] then_polluted_env = true ∧
  then_inherited then_polluted_env = true ∧
  ∃ f st',
    ShowNotification (H := idle_engine) no_arguments then_polluted_env
      = (Returned (VObject (next then_polluted_env)), st') ∧
    promise_state st' (VObject (next then_polluted_env)) = Some Pending ∧
    heap st' !! S (next then_polluted_env)
      = Some (unavailable_record then_polluted_env) ∧
    jobs st' = jobs then_polluted_env ++
      [{| job_promise := next then_polluted_env;
          job_thenable := S (next then_polluted_env);
          job_then := f |}].
Proof.
  split; [apply (bool_decide_unpack _); by vm_compute |].
  do 2 (split; [reflexivity |]).
  apply (ShowNotification_pending_when_then_is_inherited (H := idle_engine)
           no_arguments then_polluted_env);
    [apply (bool_decide_unpack _); by vm_compute | reflexivity ..].
Defined.
